(** * The ABR controller of hls.js (src/controller/abr-controller.js)

    A shallow embedding of [AbrController]: the lazily built bandwidth
    estimator, the periodic abandon-rules check and the [nextAutoLevel]
    getter, followed by the properties the specification states about them.

    Conventions of the embedding.
    - A JavaScript number that holds a level index, a counter or a timer id
      is an integer ([Z] or [nat]).  Every other number is a [num]: an exact
      rational or one of the IEEE special values [Infinity], [-Infinity],
      [NaN].  Rounding of doubles is not modelled and there is a single zero
      (it behaves as [+0]); the concrete inputs used below are values on
      which double arithmetic is exact.
    - Objects that are shared and mutated ([frag], handed over by reference
      in the event data and kept in [this.fragCurrent]) live in a heap and
      are named by their address.
    - A method is a state transformer over the pair (world, controller) that
      either completes or throws a [TypeError]; what it mutated before the
      throw stays mutated, as in JavaScript.
    - [logger.log] lines (debug output) have no effect on control flow and
      are left out; [logger.warn] lines are recorded. *)

From Stdlib Require Import QArith Qabs Qround ZArith List String Bool Lia Lqa.
Import ListNotations.

Open Scope Z_scope.

(* ------------------------------------------------------------------ *)
(** ** JavaScript numbers *)

Inductive num : Type :=
| Fin (q : Q)
| PInf
| NInf
| NaN.

Declare Scope js_scope.
Delimit Scope js_scope with js.
Bind Scope js_scope with num.

Module Num.

Definition of_Z (z : Z) : num := Fin (inject_Z z).

(** [x ?= 0] on the rationals, as a three-way choice. *)
Definition by_sign {A : Type} (q : Q) (neg zero pos : A) : A :=
  match (q ?= 0)%Q with
  | Lt => neg
  | Eq => zero
  | Gt => pos
  end.

Definition neg (a : num) : num :=
  match a with
  | Fin x => Fin (- x)
  | PInf => NInf
  | NInf => PInf
  | NaN => NaN
  end.

Definition add (a b : num) : num :=
  match a, b with
  | NaN, _ | _, NaN => NaN
  | Fin x, Fin y => Fin (x + y)
  | PInf, NInf | NInf, PInf => NaN
  | PInf, _ | _, PInf => PInf
  | NInf, _ | _, NInf => NInf
  end.

Definition sub (a b : num) : num := add a (neg b).

Definition mul (a b : num) : num :=
  match a, b with
  | NaN, _ | _, NaN => NaN
  | Fin x, Fin y => Fin (x * y)
  | Fin x, PInf | PInf, Fin x => by_sign x NInf NaN PInf
  | Fin x, NInf | NInf, Fin x => by_sign x PInf NaN NInf
  | PInf, PInf | NInf, NInf => PInf
  | PInf, NInf | NInf, PInf => NInf
  end.

Definition div (a b : num) : num :=
  match a, b with
  | NaN, _ | _, NaN => NaN
  | Fin x, Fin y =>
      by_sign y (Fin (x / y)) (by_sign x NInf NaN PInf) (Fin (x / y))
  | Fin _, (PInf | NInf) => Fin 0
  | PInf, Fin y => by_sign y NInf PInf PInf
  | NInf, Fin y => by_sign y PInf NInf NInf
  | (PInf | NInf), (PInf | NInf) => NaN
  end.

(** [a < b]; every comparison with [NaN] is false. *)
Definition ltb (a b : num) : bool :=
  match a, b with
  | Fin x, Fin y => match (x ?= y)%Q with Lt => true | _ => false end
  | NInf, (Fin _ | PInf) => true
  | Fin _, PInf => true
  | _, _ => false
  end.

Definition gtb (a b : num) : bool := ltb b a.

(** [a !== 0] *)
Definition nonzero (a : num) : bool :=
  match a with
  | Fin x => by_sign x true false true
  | _ => true
  end.

(** [Math.abs] *)
Definition abs (a : num) : num :=
  match a with
  | Fin x => Fin (Qabs x)
  | PInf | NInf => PInf
  | NaN => NaN
  end.

(** [Math.max] of two arguments: [NaN] as soon as one of them is. *)
Definition max (a b : num) : num :=
  match a, b with
  | NaN, _ | _, NaN => NaN
  | _, _ => if ltb a b then b else a
  end.

(** [Math.round]: the nearest integer, halves towards [+Infinity]. *)
Definition round (a : num) : num :=
  match a with
  | Fin x => Fin (inject_Z (Qfloor (x + (1 # 2))))
  | _ => a
  end.

(** Equality of values, up to the representation of the fraction. *)
Definition eqv (a b : num) : Prop :=
  match a, b with
  | Fin x, Fin y => (x == y)%Q
  | PInf, PInf | NInf, NInf | NaN, NaN => True
  | _, _ => False
  end.

End Num.

Infix "+" := Num.add : js_scope.
Infix "-" := Num.sub : js_scope.
Infix "*" := Num.mul : js_scope.
Infix "/" := Num.div : js_scope.
Infix "<?" := Num.ltb : js_scope.
Infix ">?" := Num.gtb : js_scope.

(** Numeric literals of the source. *)
Definition n0 : num := Fin 0.
Definition n1 : num := Fin 1.
Definition n2 : num := Fin 2.
Definition n8 : num := Fin 8.
Definition n500 : num := Fin 500.
Definition n1000 : num := Fin 1000.
Definition n0_5 : num := Fin (1 # 2).
Definition n0_8 : num := Fin (4 # 5).

(* ------------------------------------------------------------------ *)
(** ** Data model *)

(** [stats] of a loader: [aborted] is [undefined] until the load is
    aborted. *)
Module Stats.
Record t : Type := mk {
  aborted : option bool;
  trequest : num;
  loaded : num
}.
End Stats.

Module Loader.
Record t : Type := mk { stats : option Stats.t }.
End Loader.

(** A fragment.  [trequest] is [NaN] as long as nothing was assigned to it
    (the source only ever subtracts it from a number). *)
Module Frag.
Record t : Type := mk {
  type : string;
  level : Z;
  duration : num;
  loaded : num;
  loader : option Loader.t;
  trequest : num;
  autoLevel : bool;
  loadCounter : Z
}.

Definition set_trequest (f : t) (x : num) : t :=
  mk (type f) (level f) (duration f) (loaded f) (loader f) x
     (autoLevel f) (loadCounter f).
End Frag.

(** A reference to a fragment: its address in the heap. *)
Definition ref : Type := nat.

Record LevelDetails : Type := { live : bool }.

Record Level : Type := {
  bitrate : num;
  details : option LevelDetails
}.

Record Media : Type := {
  paused : bool;
  playbackRate : num;
  readyState : Z;
  currentTime : num;
  buffered : list (num * num)
}.

Record Config : Type := {
  abrEwmaFastLive : num;
  abrEwmaSlowLive : num;
  abrEwmaFastVoD : num;
  abrEwmaSlowVoD : num;
  abrEwmaDefaultEstimate : num;
  maxBufferHole : num
}.

(** What the controller does to its surroundings, newest first. *)
Inductive effect : Type :=
| Warn (msg : string)
| SetNextLoadLevel (l : Z)                     (* hls.nextLoadLevel = l *)
| LoaderAbort (frag : ref)                     (* frag.loader.abort() *)
| FragLoadEmergencyAborted (frag : ref).       (* hls.trigger(FRAG_LOAD_EMERGENCY_ABORTED, {frag}) *)

(** The [hls] object and the runtime around the controller. *)
Record World : Type := {
  levels : option (list Level);                (* hls.levels *)
  media : option Media;                        (* hls.media *)
  config : Config;                             (* hls.config *)
  heap : list Frag.t;                          (* the fragment objects *)
  now : num;                                   (* performance.now() *)
  intervals : list positive;                   (* the active setInterval timers *)
  lastTimerId : positive;                      (* the last handle setInterval gave out *)
  effects : list effect
}.

(** The state of an [EwmaBandWidthEstimator]: the arguments it was built
    with and the samples it was fed, newest first.  How it averages them is
    not part of this file, see [Collaborators]. *)
Record Estimator : Type := {
  ewmaSlow : num;
  ewmaFast : num;
  defaultEstimate : num;
  samples : list (num * num)
}.

Record AbrController : Type := {
  lastLoadedFragLevel : Z;
  _autoLevelCapping : Z;
  _nextAutoLevel : Z;
  timer : option positive;
  bwEstimator : option Estimator;
  fragCurrent : option ref
}.

(** The code of the repository that this file takes as given:
    [EwmaBandWidthEstimator.getEstimate] and the [end] field of
    [BufferHelper.bufferInfo(media, pos, maxHoleDuration)]. *)
Class Collaborators : Type := {
  getEstimate : Estimator -> num;
  bufferInfoEnd : option Media -> num -> num -> num
}.

(* ------------------------------------------------------------------ *)
(** ** Methods as state transformers that may throw *)

Inductive error : Type := TypeError.

Inductive completion (A : Type) : Type :=
| Normal (a : A)
| Throw (e : error).
Arguments Normal {A} a.
Arguments Throw {A} e.

Definition state : Type := (World * AbrController)%type.

Definition M (A : Type) : Type := state -> state * completion A.

Definition ret {A : Type} (a : A) : M A := fun st => (st, Normal a).

Definition bind {A B : Type} (c : M A) (k : A -> M B) : M B :=
  fun st =>
    match c st with
    | (st', Normal a) => k a st'
    | (st', Throw e) => (st', Throw e)
    end.

Declare Scope method_scope.
Delimit Scope method_scope with method.
Notation "x <- c ;; k" := (bind c (fun x => k))
  (at level 61, c at next level, right associativity) : method_scope.
Notation "c ;; k" := (bind c (fun _ => k))
  (at level 61, right associativity) : method_scope.
Open Scope method_scope.

Definition getWorld : M World := fun st => (st, Normal (fst st)).
Definition getThis : M AbrController := fun st => (st, Normal (snd st)).
Definition putWorld (w : World) : M unit := fun st => ((w, snd st), Normal tt).

(** [this.field = a], with the update of the field as [setter]. *)
Definition assign {A : Type} (setter : AbrController -> A -> AbrController)
           (a : A) : M unit :=
  fun st => ((fst st, setter (snd st) a), Normal tt).

(** Reading a property of [undefined] throws. *)
Definition defined {A : Type} (x : option A) : M A :=
  match x with
  | Some a => ret a
  | None => fun st => (st, Throw TypeError)
  end.

(** A computation that touches no state. *)
Definition lift {A : Type} (c : completion A) : M A := fun st => (st, c).

(** *** Field updates *)

Definition with_heap (w : World) (h : list Frag.t) : World :=
  Build_World (levels w) (media w) (config w) h (now w) (intervals w)
              (lastTimerId w) (effects w).

Definition with_intervals (w : World) (l : list positive) (last : positive)
  : World :=
  Build_World (levels w) (media w) (config w) (heap w) (now w) l last
              (effects w).

Definition with_effects (w : World) (l : list effect) : World :=
  Build_World (levels w) (media w) (config w) (heap w) (now w) (intervals w)
              (lastTimerId w) l.

Definition set_lastLoadedFragLevel (this : AbrController) (l : Z) :=
  Build_AbrController l (_autoLevelCapping this) (_nextAutoLevel this)
                      (timer this) (bwEstimator this) (fragCurrent this).

Definition set_autoLevelCapping (this : AbrController) (l : Z) :=
  Build_AbrController (lastLoadedFragLevel this) l (_nextAutoLevel this)
                      (timer this) (bwEstimator this) (fragCurrent this).

Definition set_nextAutoLevel (this : AbrController) (l : Z) :=
  Build_AbrController (lastLoadedFragLevel this) (_autoLevelCapping this) l
                      (timer this) (bwEstimator this) (fragCurrent this).

Definition set_timer (this : AbrController) (t : option positive) :=
  Build_AbrController (lastLoadedFragLevel this) (_autoLevelCapping this)
                      (_nextAutoLevel this) t (bwEstimator this)
                      (fragCurrent this).

Definition set_bwEstimator (this : AbrController) (e : option Estimator) :=
  Build_AbrController (lastLoadedFragLevel this) (_autoLevelCapping this)
                      (_nextAutoLevel this) (timer this) e (fragCurrent this).

Definition set_fragCurrent (this : AbrController) (f : option ref) :=
  Build_AbrController (lastLoadedFragLevel this) (_autoLevelCapping this)
                      (_nextAutoLevel this) (timer this) (bwEstimator this) f.

(** *** The heap of fragments *)

Fixpoint replace_nth {A : Type} (l : list A) (n : nat) (a : A) : list A :=
  match l, n with
  | [], _ => []
  | _ :: t, O => a :: t
  | h :: t, S k => h :: replace_nth t k a
  end.

(** Following a reference.  A reference comes from a live object, so the
    lookup succeeds on every heap the handlers are run on; a dangling one is
    treated like [undefined]. *)
Definition deref (r : ref) : M Frag.t :=
  w <- getWorld ;; defined (nth_error (heap w) r).

Definition write_trequest (r : ref) (x : num) : M unit :=
  w <- getWorld ;;
  f <- defined (nth_error (heap w) r) ;;
  putWorld (with_heap w (replace_nth (heap w) r (Frag.set_trequest f x))).

(** *** The runtime and the collaborators *)

Definition emit (e : effect) : M unit :=
  w <- getWorld ;; putWorld (with_effects w (e :: effects w)).

(** [setInterval(...)]: a fresh handle.  Handles are positive integers, so
    that [if (this.timer)] tells a handle from [undefined] and [null]. *)
Definition setInterval : M positive :=
  w <- getWorld ;;
  let id := Pos.succ (lastTimerId w) in
  putWorld (with_intervals w (id :: intervals w) id) ;;
  ret id.

Definition clearInterval (id : positive) : M unit :=
  w <- getWorld ;;
  putWorld (with_intervals w
              (filter (fun j => negb (Pos.eqb j id)) (intervals w))
              (lastTimerId w)).

(** [new EwmaBandWidthEstimator(hls, slow, fast, defaultEstimate)] *)
Definition new_estimator (slow fast default : num) : Estimator :=
  Build_Estimator slow fast default [].

Definition record_sample (e : Estimator) (ms bytes : num) : Estimator :=
  Build_Estimator (ewmaSlow e) (ewmaFast e) (defaultEstimate e)
                  ((ms, bytes) :: samples e).

(** [this.bwEstimator.sample(ms, bytes)] *)
Definition sample (ms bytes : num) : M unit :=
  this <- getThis ;;
  est <- defined (bwEstimator this) ;;
  assign set_bwEstimator (Some (record_sample est ms bytes)).

(** [levels[i]], to be dereferenced: out of range, or with [levels] itself
    undefined, the property access that follows throws. *)
Definition level_at (levels : option (list Level)) (i : Z) : option Level :=
  match levels with
  | Some l => if i <? 0 then None else nth_error l (Z.to_nat i)
  | None => None
  end.

(* ------------------------------------------------------------------ *)
(** ** The controller *)

(** [constructor(hls)] *)
Definition constructor : AbrController :=
  {| lastLoadedFragLevel := 0;
     _autoLevelCapping := -1;
     _nextAutoLevel := -1;
     timer := None;
     bwEstimator := None;
     fragCurrent := None |}.

Definition clearTimer : M unit :=
  this <- getThis ;;
  match timer this with
  | Some id =>
      clearInterval id ;;
      assign set_timer None
  | None => ret tt
  end.

Definition destroy : M unit := clearTimer.

Record FragLoadingData : Type := { loading_frag : ref }.

Definition onFragLoading (data : FragLoadingData) : M unit :=
  let frag := loading_frag data in
  f <- deref frag ;;
  if (Frag.type f =? "main")%string then
    this <- getThis ;;
    (match timer this with
     | None =>
         id <- setInterval ;;
         assign set_timer (Some id)
     | Some _ => ret tt
     end) ;;
    this <- getThis ;;
    (match bwEstimator this with
     | Some _ => ret tt
     | None =>
         hls <- getWorld ;;
         let level := Frag.level f in
         lv <- defined (level_at (levels hls) level) ;;
         d <- defined (details lv) ;;
         let isLive := live d in
         let config := config hls in
         let ewmaFast :=
           if isLive then abrEwmaFastLive config else abrEwmaFastVoD config in
         let ewmaSlow :=
           if isLive then abrEwmaSlowLive config else abrEwmaSlowVoD config in
         assign set_bwEstimator
                (Some (new_estimator ewmaSlow ewmaFast
                                     (abrEwmaDefaultEstimate config)))
     end) ;;
    w <- getWorld ;;
    write_trequest frag (now w) ;;
    assign set_fragCurrent (Some frag)
  else ret tt.

(** The loop of the abandon-rules check:
    [for (nextLoadLevel = frag.level - 1; nextLoadLevel >= 0; nextLoadLevel--)],
    with [n] the number of indices still to visit, so that the index at hand
    is [n - 1].  [delay] is the projected load time of a fragment of that
    level and [last] the value [fragLevelNextLoadedDelay] holds so far
    ([None] for [undefined]).  The result is the pair of [nextLoadLevel] and
    [fragLevelNextLoadedDelay] after the loop. *)
Fixpoint fallback_search (levels : option (list Level)) (delay : Level -> num)
         (bufferStarvationDelay : num) (n : nat) (last : option num)
  : completion (Z * option num) :=
  match n with
  | O => Normal (-1, last)
  | S k =>
      match level_at levels (Z.of_nat k) with
      | None => Throw TypeError
      | Some lv =>
          let fragLevelNextLoadedDelay := delay lv in
          if (fragLevelNextLoadedDelay <? bufferStarvationDelay)%js
          then Normal (Z.of_nat k, Some fragLevelNextLoadedDelay)
          else fallback_search levels delay bufferStarvationDelay k
                               (Some fragLevelNextLoadedDelay)
      end
  end.

(** [x < y] where [x] may still be [undefined] (it converts to [NaN]). *)
Definition undefined_ltb (x : option num) (y : num) : bool :=
  match x with
  | Some a => (a <? y)%js
  | None => false
  end.

(** The loops of [nextAutoLevel]: [for (let i = maxAutoLevel; i >= 0; i--)],
    returning from the first index whose level passes [test]. *)
Fixpoint scan_down (levels : option (list Level)) (test : Level -> bool)
         (n : nat) : completion (option Z) :=
  match n with
  | O => Normal None
  | S k =>
      match level_at levels (Z.of_nat k) with
      | None => Throw TypeError
      | Some lv =>
          if test lv then Normal (Some (Z.of_nat k))
          else scan_down levels test k
      end
  end.

(** [!frag.loader || (frag.loader.stats && frag.loader.stats.aborted)] *)
Definition loader_gone (f : Frag.t) : bool :=
  match Frag.loader f with
  | None => true
  | Some l =>
      match Loader.stats l with
      | Some s => match Stats.aborted s with Some true => true | _ => false end
      | None => false
      end
  end.

(** [(!v.paused && (v.playbackRate !== 0)) || !v.readyState] *)
Definition playing_or_starting (v : Media) : bool :=
  (negb (paused v) && Num.nonzero (playbackRate v)) || (readyState v =? 0).

(** [bitrate * frag.duration / lastbw] *)
Definition fetchTime (lv : Level) (duration lastbw : num) : num :=
  (bitrate lv * duration / lastbw)%js.

(** The test of the first loop of [nextAutoLevel]. *)
Definition fetched_in_time (duration lastbw availableFetchTime : num)
           (lv : Level) : bool :=
  (fetchTime lv duration lastbw <? availableFetchTime)%js.

(** The test of its second loop. *)
Definition rebuilds_buffer (duration lastbw availableFetchTime : num)
           (lv : Level) : bool :=
  let timeRecovered := (duration - fetchTime lv duration lastbw)%js in
  (n0_5 * availableFetchTime + timeRecovered >? n0)%js.

(** The capping/max level that automatic selection may use. *)
Definition maxAutoLevel (w : World) (this : AbrController) : Z :=
  match levels w with
  | Some l =>
      if (_autoLevelCapping this =? -1) && negb (Nat.eqb (List.length l) 0)
      then Z.of_nat (List.length l) - 1
      else _autoLevelCapping this
  | None => _autoLevelCapping this
  end.

Definition warn_destroyed : string :=
  "frag loader destroy or aborted, disarm abandonRulesCheck".
Definition warn_too_slow : string :=
  "loading too slow, abort fragment loading and switch to level".
Definition warn_no_level : string :=
  "Unable to find a segment we can reasonably expect to fetch in time; returning level 0.".

Record FragLoadedData : Type := {
  loaded_frag : ref;
  loaded_stats : Stats.t
}.

Inductive ErrorDetails : Type :=
| FRAG_LOAD_ERROR
| FRAG_LOAD_TIMEOUT
| OtherDetails (name : string).

Record ErrorData : Type := { error_details : ErrorDetails }.

Section Controller.

Context {collaborators : Collaborators}.

(** The playback rate [nextAutoLevel] plans with. *)
Definition planningRate (v : option Media) : num :=
  match v with
  | Some m =>
      if Num.nonzero (playbackRate m) then Num.abs (playbackRate m) else n1
  | None => n1
  end.

(** [availableFetchTime] of [nextAutoLevel], from the world and the
    fragment [this.fragCurrent] refers to. *)
Definition availableFetchTime (hls : World) (frag : Frag.t) : num :=
  let v := media hls in
  let pos := match v with Some m => currentTime m | None => n0 end in
  let playbackRate := planningRate v in
  let bufferStarvationDelay :=
    ((bufferInfoEnd v pos (maxBufferHole (config hls)) - pos) / playbackRate)%js in
  let targetMinBuffered := (n2 * Frag.duration frag / playbackRate)%js in
  (bufferStarvationDelay - targetMinBuffered)%js.

(** The quantities the abandon-rules check computes once the fragment has
    been loading for long enough. *)
Definition requestDelay (hls : World) (frag : Frag.t) : num :=
  (now hls - Frag.trequest frag)%js.

Definition loadRate (hls : World) (frag : Frag.t) : num :=
  Num.max n1 (Frag.loaded frag * n1000 / requestDelay hls frag)%js.

Definition expectedLen (frag : Frag.t) (lv : Level) : num :=
  Num.max (Frag.loaded frag)
          (Num.round (Frag.duration frag * bitrate lv / n8)%js).

Definition fragLoadedDelay (hls : World) (frag : Frag.t) (lv : Level) : num :=
  ((expectedLen frag lv - Frag.loaded frag) / loadRate hls frag)%js.

Definition bufferStarvationDelay (hls : World) (v : Media) : num :=
  let pos := currentTime v in
  ((bufferInfoEnd (Some v) pos (maxBufferHole (config hls)) - pos)
   / Num.abs (playbackRate v))%js.

(** [frag.duration * levels[nextLoadLevel].bitrate / (8 * 0.8 * loadRate)] *)
Definition nextLoadedDelay (hls : World) (frag : Frag.t) (lv : Level) : num :=
  (Frag.duration frag * bitrate lv / (n8 * n0_8 * loadRate hls frag))%js.

Definition abandonRulesCheck : M unit :=
  hls <- getWorld ;;
  this <- getThis ;;
  let v := media hls in
  r <- defined (fragCurrent this) ;;
  frag <- deref r ;;
  if loader_gone frag then
    emit (Warn warn_destroyed) ;;
    clearTimer
  else
    match v with
    | None => ret tt
    | Some v =>
        if playing_or_starting v && Frag.autoLevel frag
           && negb (Frag.level frag =? 0)
        then
          let requestDelay := requestDelay hls frag in
          let playbackRate := Num.abs (playbackRate v) in
          if (requestDelay >? n500 * Frag.duration frag / playbackRate)%js
          then
            let levels := levels hls in
            lv <- defined (level_at levels (Frag.level frag)) ;;
            let fragLoadedDelay := fragLoadedDelay hls frag lv in
            let bufferStarvationDelay := bufferStarvationDelay hls v in
            if ((bufferStarvationDelay <? n2 * Frag.duration frag / playbackRate)
                && (fragLoadedDelay >? bufferStarvationDelay))%js
            then
              found <- lift (fallback_search levels (nextLoadedDelay hls frag)
                               bufferStarvationDelay
                               (Z.to_nat (Frag.level frag - 1 + 1)) None) ;;
              let nextLoadLevel := fst found in
              let fragLevelNextLoadedDelay := snd found in
              if undefined_ltb fragLevelNextLoadedDelay fragLoadedDelay then
                let nextLoadLevel := Z.max 0 nextLoadLevel in
                emit (SetNextLoadLevel nextLoadLevel) ;;
                sample requestDelay (Frag.loaded frag) ;;
                emit (Warn warn_too_slow) ;;
                emit (LoaderAbort r) ;;
                clearTimer ;;
                emit (FragLoadEmergencyAborted r)
              else ret tt
            else ret tt
          else ret tt
        else ret tt
    end.

Definition onFragLoaded (data : FragLoadedData) : M unit :=
  frag <- deref (loaded_frag data) ;;
  if (Frag.type frag =? "main")%string then
    let stats := loaded_stats data in
    (match Stats.aborted stats with
     | None =>
         if Frag.loadCounter frag =? 1 then
           w <- getWorld ;;
           sample (now w - Stats.trequest stats)%js (Stats.loaded stats)
         else ret tt
     | Some _ => ret tt
     end) ;;
    clearTimer ;;
    assign set_lastLoadedFragLevel (Frag.level frag) ;;
    assign set_nextAutoLevel (-1)
  else ret tt.

Definition onError (data : ErrorData) : M unit :=
  match error_details data with
  | FRAG_LOAD_ERROR | FRAG_LOAD_TIMEOUT => clearTimer
  | _ => ret tt
  end.

(** [get autoLevelCapping] and [set autoLevelCapping] *)
Definition get_autoLevelCapping : M Z :=
  this <- getThis ;; ret (_autoLevelCapping this).

Definition put_autoLevelCapping (newLevel : Z) : M unit :=
  assign set_autoLevelCapping newLevel.

(** [nextAutoLevel] once no level is forced: the two loops and the last
    resort. *)
Definition selectLevel (levels : option (list Level)) (maxAutoLevel : Z)
           (duration lastbw availableFetchTime : num) : M Z :=
  first <- (if (availableFetchTime >? n0)%js then
              lift (scan_down levels
                      (fetched_in_time duration lastbw availableFetchTime)
                      (Z.to_nat (maxAutoLevel + 1)))
            else ret None) ;;
  match first with
  | Some i => ret i
  | None =>
      second <- lift (scan_down levels
                        (rebuilds_buffer duration lastbw availableFetchTime)
                        (Z.to_nat (maxAutoLevel + 1))) ;;
      match second with
      | Some i => ret i
      | None => emit (Warn warn_no_level) ;; ret 0
      end
  end.

(** [get nextAutoLevel] *)
Definition nextAutoLevel : M Z :=
  hls <- getWorld ;;
  this <- getThis ;;
  let levels := levels hls in
  let maxAutoLevel := maxAutoLevel hls this in
  if negb (_nextAutoLevel this =? -1) then
    ret (Z.min (_nextAutoLevel this) maxAutoLevel)
  else
    est <- defined (bwEstimator this) ;;
    let lastbw := getEstimate est in
    r <- defined (fragCurrent this) ;;
    frag <- deref r ;;
    selectLevel levels maxAutoLevel (Frag.duration frag) lastbw
                (availableFetchTime hls frag).

(** [set nextAutoLevel] *)
Definition put_nextAutoLevel (nextLevel : Z) : M unit :=
  assign set_nextAutoLevel nextLevel.

End Controller.

(* ------------------------------------------------------------------ *)
(** ** The calls the controller receives *)

Inductive call : Type :=
| FragLoading (data : FragLoadingData)         (* Event.FRAG_LOADING *)
| FragLoaded (data : FragLoadedData)           (* Event.FRAG_LOADED *)
| Error (data : ErrorData)                     (* Event.ERROR *)
| Tick                                         (* the interval timer fires *)
| Destroy
| SetAutoLevelCapping (newLevel : Z)
| SetNextAutoLevel (nextLevel : Z)
| GetNextAutoLevel.

Section Reachability.

Context {collaborators : Collaborators}.

Definition run (c : call) : M unit :=
  match c with
  | FragLoading data => onFragLoading data
  | FragLoaded data => onFragLoaded data
  | Error data => onError data
  | Tick => abandonRulesCheck
  | Destroy => destroy
  | SetAutoLevelCapping l => put_autoLevelCapping l
  | SetNextAutoLevel l => put_nextAutoLevel l
  | GetNextAutoLevel => nextAutoLevel ;; ret tt
  end.

(** What the player guarantees about a call: the fragment of an event is
    an object of the heap, a fragment that starts loading belongs to a
    level whose playlist is loaded ([details] is set), and the timer only
    fires while an interval is active. *)
Definition well_formed (c : call) (w : World) : Prop :=
  match c with
  | FragLoading data =>
      exists f lv d,
        nth_error (heap w) (loading_frag data) = Some f /\
        level_at (levels w) (Frag.level f) = Some lv /\
        details lv = Some d
  | FragLoaded data =>
      exists f, nth_error (heap w) (loaded_frag data) = Some f
  | Tick => intervals w <> []
  | _ => True
  end.

(** What happens between two calls: the media element plays, the loader
    makes progress, playlists arrive.  Objects do not disappear, and the
    timers and the recorded effects belong to the controller. *)
Definition environment_step (w w' : World) : Prop :=
  (List.length (heap w) <= List.length (heap w'))%nat /\
  intervals w' = intervals w /\
  lastTimerId w' = lastTimerId w /\
  effects w' = effects w.

Inductive reachable : state -> Prop :=
| reachable_new (w : World) :
    intervals w = [] -> reachable (w, constructor)
| reachable_env (w w' : World) (this : AbrController) :
    reachable (w, this) -> environment_step w w' -> reachable (w', this)
| reachable_call (c : call) (st : state) :
    reachable st -> well_formed c (fst st) -> reachable (fst (run c st)).

(** The invariant of the monitor: the interval the runtime holds is the
    one in [this.timer], and while there is one the estimator is built
    and [this.fragCurrent] refers to a fragment. *)
Definition monitor_invariant (st : state) : Prop :=
  match timer (snd st) with
  | Some id =>
      intervals (fst st) = [id] /\
      (exists est, bwEstimator (snd st) = Some est) /\
      (exists r frag, fragCurrent (snd st) = Some r /\
                      nth_error (heap (fst st)) r = Some frag)
  | None => intervals (fst st) = []
  end.

(** A method keeps a property of the state, also when it throws. *)
Definition preserves {A : Type} (I : state -> Prop) (c : M A) : Prop :=
  forall st, I st -> I (fst (c st)).

(** *** The statements of the specification, in its words *)

(** The conditions under which the abandon-rules check may cancel the
    request [frag] that is in flight. *)
Definition abandon_conditions (hls : World) (frag : Frag.t) : bool :=
  match media hls, level_at (levels hls) (Frag.level frag) with
  | Some v, Some lv =>
      let rate := Num.abs (playbackRate v) in
      (* auto-selected, and not the lowest level *)
      Frag.autoLevel frag && negb (Frag.level frag =? 0)
      (* playing, or nothing decoded yet *)
      && ((negb (paused v) && Num.nonzero (playbackRate v))
          || (readyState v =? 0))
      (* half of the fragment duration has elapsed *)
      && (requestDelay hls frag >? n500 * Frag.duration frag / rate)%js
      (* less than two fragments are buffered *)
      && (bufferStarvationDelay hls v <? n2 * Frag.duration frag / rate)%js
      (* the fragment will not be there before the buffer runs dry *)
      && (fragLoadedDelay hls frag lv >? bufferStarvationDelay hls v)%js
  | _, _ => false
  end.

(** The fragment [this.fragCurrent] refers to. *)
Definition monitored (st : state) : option Frag.t :=
  match fragCurrent (snd st) with
  | Some r => nth_error (heap (fst st)) r
  | None => None
  end.

Definition abandon_allowed (st : state) : bool :=
  match monitored st with
  | Some frag => abandon_conditions (fst st) frag
  | None => false
  end.

(** "This was the first load attempt for that request and it was not
    itself an aborted/partial load." *)
Definition first_complete_load (data : FragLoadedData) (frag : Frag.t)
  : bool :=
  match Stats.aborted (loaded_stats data) with
  | None => Frag.loadCounter frag =? 1
  | Some _ => false
  end.

(** The fallback search over the levels [top], ..., 0 "stops at the first
    (highest) index where [candidateDelay < bufferStarvationDelay]", or
    "bottoms out at index -1"; [candidateDelay] is the delay computed last:
    the one of the index found, or the one of index 0. *)
Definition search_outcome (levels : option (list Level))
           (delay : Level -> num) (bufferStarvationDelay : num) (top : Z)
           (exit : Z) (candidateDelay : num) : Prop :=
  (0 <= exit <= top /\
   (exists lv, level_at levels exit = Some lv /\ candidateDelay = delay lv) /\
   (candidateDelay <? bufferStarvationDelay)%js = true /\
   (forall j lvj, exit < j <= top -> level_at levels j = Some lvj ->
                  (delay lvj <? bufferStarvationDelay)%js = false))
  \/
  (exit = -1 /\
   (exists lv0, level_at levels 0 = Some lv0 /\ candidateDelay = delay lv0) /\
   (forall j lvj, 0 <= j <= top -> level_at levels j = Some lvj ->
                  (delay lvj <? bufferStarvationDelay)%js = false)).

(** The result of [get nextAutoLevel] on [st], when it returns. *)
Definition selected (st : state) (i : Z) : Prop :=
  snd (nextAutoLevel st) = Normal i.

(** "Increasing the bandwidth estimate while holding buffer state fixed
    never decreases the selected level index", for the world [w] and two
    controllers that differ in their estimator only. *)
Definition monotonic_in_estimate (w : World) (this : AbrController)
           (est1 est2 : Estimator) : Prop :=
  forall i1 i2 q1 q2,
    getEstimate est1 = Fin q1 -> getEstimate est2 = Fin q2 ->
    (q1 <= q2)%Q ->
    selected (w, set_bwEstimator this (Some est1)) i1 ->
    selected (w, set_bwEstimator this (Some est2)) i2 ->
    i1 <= i2.

(** "The engine never holds a reference to a request after it has been
    completed", for the completion [data] handled in the state [st]. *)
Definition reference_dropped_on_completion (st : state) (data : FragLoadedData)
  : Prop :=
  fragCurrent (snd st) = Some (loaded_frag data) ->
  fragCurrent (snd (fst (onFragLoaded data st))) <> Some (loaded_frag data).

End Reachability.

(* ------------------------------------------------------------------ *)
(** ** Closed examples *)

(** Modelled from the spec: [EwmaBandWidthEstimator.getEstimate] and
    [BufferHelper.bufferInfo] are not among the sources at hand.  The
    estimator "must return a usable default even before any sample is
    recorded (a configured default estimate)"; after that this stand-in
    answers with the bandwidth of the latest sample.  The buffer query
    reports "the end of the contiguous buffered run containing
    [currentPosition]", here the first range of [media.buffered] that holds
    the position, and the position itself when there is none.  They only
    serve to run the controller on concrete inputs: every theorem below holds
    for all collaborators. *)
Definition example_getEstimate (e : Estimator) : num :=
  match samples e with
  | [] => defaultEstimate e
  | (ms, bytes) :: _ => (n8 * n1000 * bytes / ms)%js
  end.

Definition example_bufferInfoEnd (v : option Media) (pos hole : num) : num :=
  match v with
  | None => n0
  | Some m =>
      match find (fun range => negb (pos <? fst range - hole)%js
                               && (pos <? snd range)%js) (buffered m) with
      | Some range => snd range
      | None => pos
      end
  end.

Definition example_collaborators : Collaborators :=
  {| getEstimate := example_getEstimate;
     bufferInfoEnd := example_bufferInfoEnd |}.

Definition vod_level (bps : Z) : Level :=
  {| bitrate := Num.of_Z bps; details := Some {| live := false |} |}.

(** The ladder of the scenarios: 500, 1000 and 2000 kbit/s. *)
Definition ladder : list Level :=
  [vod_level 500000; vod_level 1000000; vod_level 2000000].

Definition example_config (defaultEstimate : Z) : Config :=
  {| abrEwmaFastLive := Fin 5;
     abrEwmaSlowLive := Fin 9;
     abrEwmaFastVoD := Fin 4;
     abrEwmaSlowVoD := Fin 15;
     abrEwmaDefaultEstimate := Num.of_Z defaultEstimate;
     maxBufferHole := Fin (1 # 2) |}.

(** A fragment of six seconds of level [l], just created, its loader at
    work. *)
Definition example_frag (l : Z) : Frag.t :=
  {| Frag.type := "main";
     Frag.level := l;
     Frag.duration := Fin 6;
     Frag.loaded := Fin 0;
     Frag.loader := Some (Loader.mk (Some (Stats.mk None n0 n0)));
     Frag.trequest := NaN;
     Frag.autoLevel := true;
     Frag.loadCounter := 1 |}.

(** A media element playing at rate 1 from position 0, with [0, bufferEnd]
    buffered. *)
Definition example_media (bufferEnd : Q) : Media :=
  {| paused := false;
     playbackRate := Fin 1;
     readyState := 4;
     currentTime := Fin 0;
     buffered := [(Fin 0, Fin bufferEnd)] |}.

Definition example_world (defaultEstimate : Z) (bufferEnd : Q) (fragLevel : Z)
  : World :=
  {| levels := Some ladder;
     media := Some (example_media bufferEnd);
     config := example_config defaultEstimate;
     heap := [example_frag fragLevel];
     now := Fin 0;
     intervals := [];
     lastTimerId := 1%positive;
     effects := [] |}.

(** The state once the fragment at address 0 has started loading. *)
Definition example_loading (defaultEstimate : Z) (bufferEnd : Q) (fragLevel : Z)
  : state :=
  fst (@onFragLoading {| loading_frag := 0%nat |}
         (example_world defaultEstimate bufferEnd fragLevel, constructor)).

(** The same state, [ms] milliseconds later, with [bytes] bytes loaded. *)
Definition example_in_flight (defaultEstimate : Z) (bufferEnd : Q)
           (fragLevel : Z) (ms bytes : Q) : state :=
  let st := example_loading defaultEstimate bufferEnd fragLevel in
  let w := fst st in
  let progress (f : Frag.t) :=
    Frag.mk (Frag.type f) (Frag.level f) (Frag.duration f) (Fin bytes)
            (Frag.loader f) (Frag.trequest f) (Frag.autoLevel f)
            (Frag.loadCounter f) in
  (Build_World (levels w) (media w) (config w) (map progress (heap w))
               (Fin ms) (intervals w) (lastTimerId w) (effects w),
   snd st).

(** "loadRate = max(1, bytes_loaded * 1000 / elapsed_ms)" and
    "candidateDelay = duration * candidate.bitrate / (8 * 0.8 * loadRate)",
    in the words of the specification. *)
Definition load_rate_formula (bytesLoaded elapsedMs : num) : num :=
  Num.max (Fin 1) (bytesLoaded * Fin 1000 / elapsedMs)%js.

Definition candidate_delay (duration bitrate loadRate : num) : num :=
  (duration * bitrate / (Fin 8 * Fin (4 # 5) * loadRate))%js.

(** The candidate delay of a level for the fragment [frag] in the world
    [w], by these formulas. *)
Definition candidate_delay_of (w : World) (frag : Frag.t) (lv : Level) : num :=
  candidate_delay (Frag.duration frag) (bitrate lv)
                  (load_rate_formula (Frag.loaded frag)
                                     (now w - Frag.trequest frag)%js).

Section AnyCall.

Context {collaborators : Collaborators}.

(** The calls with no assumption on the level of a fragment: the fragment
    of an event is an object of the heap, and the timer only fires while an
    interval is active. *)
Definition receivable (c : call) (w : World) : Prop :=
  match c with
  | FragLoading data =>
      exists f, nth_error (heap w) (loading_frag data) = Some f
  | FragLoaded data =>
      exists f, nth_error (heap w) (loaded_frag data) = Some f
  | Tick => intervals w <> []
  | _ => True
  end.

Inductive reachable_any : state -> Prop :=
| reachable_any_new (w : World) :
    intervals w = [] -> reachable_any (w, constructor)
| reachable_any_env (w w' : World) (this : AbrController) :
    reachable_any (w, this) -> environment_step w w' ->
    reachable_any (w', this)
| reachable_any_call (c : call) (st : state) :
    reachable_any st -> receivable c (fst st) ->
    reachable_any (fst (run c st)).

(** "In every reachable state in which the monitor timer is armed, both
    the bandwidth estimator and the current-fragment reference are
    defined", for the state [st]. *)
Definition armed_timer_is_backed (st : state) : Prop :=
  timer (snd st) <> None ->
  exists est r frag,
    bwEstimator (snd st) = Some est /\
    fragCurrent (snd st) = Some r /\
    nth_error (heap (fst st)) r = Some frag.

End AnyCall.

(** The world of the examples, the playlist of level 1 not loaded yet. *)
Definition example_world_pending (defaultEstimate : Z) (bufferEnd : Q) : World :=
  {| levels := Some [vod_level 500000;
                     {| bitrate := Num.of_Z 1000000; details := None |};
                     vod_level 2000000];
     media := Some (example_media bufferEnd);
     config := example_config defaultEstimate;
     heap := [example_frag 1];
     now := Fin 0;
     intervals := [];
     lastTimerId := 1%positive;
     effects := [] |}.

(** [e'] is the estimator [e] after some more samples: built with the same
    arguments, its history ending in the history of [e]. *)
Definition estimator_extends (e e' : Estimator) : Prop :=
  ewmaSlow e' = ewmaSlow e /\
  ewmaFast e' = ewmaFast e /\
  defaultEstimate e' = defaultEstimate e /\
  exists newer, samples e' = newer ++ samples e.

(** Once [this.fragCurrent] is set, the estimator is built and the reference
    leads to a fragment. *)
Definition started_invariant (st : state) : Prop :=
  fragCurrent (snd st) <> None ->
  (exists est, bwEstimator (snd st) = Some est) /\
  (exists r frag, fragCurrent (snd st) = Some r /\
                  nth_error (heap (fst st)) r = Some frag).

(* ------------------------------------------------------------------ *)
(** ** Properties *)

(** *** Arithmetic of JavaScript numbers *)


Lemma by_sign_eqv {A : Type} (x y : Q) (a b c : A) :
  (x == y)%Q -> Num.by_sign x a b c = Num.by_sign y a b c.
Proof. intros E. unfold Num.by_sign. now rewrite E. Qed.

Lemma eqv_refl a : Num.eqv a a.
Proof. destruct a; simpl; auto. reflexivity. Qed.

Lemma eqv_sym a b : Num.eqv a b -> Num.eqv b a.
Proof. destruct a, b; simpl; auto. intros E; now symmetry. Qed.

Lemma ltb_fin (x y : Q) : (Fin x <? Fin y)%js = true <-> (x < y)%Q.
Proof.
  simpl. rewrite Qlt_alt. destruct (x ?= y)%Q; split; congruence.
Qed.

Lemma ltb_fin_false (x y : Q) : (Fin x <? Fin y)%js = false <-> (y <= x)%Q.
Proof.
  rewrite <- not_true_iff_false, ltb_fin. split; intros; lra.
Qed.

Lemma ltb_eqv a a' b b' :
  Num.eqv a a' -> Num.eqv b b' -> (a <? b)%js = (a' <? b')%js.
Proof.
  destruct a, a', b, b'; simpl; try tauto. intros E1 E2. now rewrite E1, E2.
Qed.

Lemma neg_eqv a a' : Num.eqv a a' -> Num.eqv (Num.neg a) (Num.neg a').
Proof. destruct a, a'; simpl; try tauto. intros E. now rewrite E. Qed.

Lemma add_eqv a a' b b' :
  Num.eqv a a' -> Num.eqv b b' -> Num.eqv (a + b)%js (a' + b')%js.
Proof.
  destruct a, a', b, b'; simpl; try tauto. intros E1 E2. now rewrite E1, E2.
Qed.

Lemma sub_eqv a a' b b' :
  Num.eqv a a' -> Num.eqv b b' -> Num.eqv (a - b)%js (a' - b')%js.
Proof. intros. unfold Num.sub. apply add_eqv; auto using neg_eqv. Qed.

Lemma mul_eqv a a' b b' :
  Num.eqv a a' -> Num.eqv b b' -> Num.eqv (a * b)%js (a' * b')%js.
Proof.
  destruct a, a', b, b'; simpl; try tauto; intros E1 E2;
    try (now rewrite E1, E2);
    try (rewrite (by_sign_eqv _ _ _ _ _ E1); apply eqv_refl);
    try (rewrite (by_sign_eqv _ _ _ _ _ E2); apply eqv_refl).
Qed.

Lemma div_eqv a a' b b' :
  Num.eqv a a' -> Num.eqv b b' -> Num.eqv (a / b)%js (a' / b')%js.
Proof.
  destruct a as [x| | |], a' as [x'| | |], b as [y| | |], b' as [y'| | |];
    simpl; try tauto; intros E1 E2.
  - rewrite (by_sign_eqv _ _ _ _ _ E2), (by_sign_eqv x x' _ _ _ E1).
    unfold Num.by_sign. destruct (y' ?= 0)%Q; simpl;
      try (now rewrite E1, E2). apply eqv_refl.
  - reflexivity.
  - reflexivity.
  - rewrite (by_sign_eqv _ _ _ _ _ E2); apply eqv_refl.
  - rewrite (by_sign_eqv _ _ _ _ _ E2); apply eqv_refl.
Qed.

(** *** The two loops of [nextAutoLevel] *)

Lemma scan_down_found levels test (n k : nat) lv :
  (k < n)%nat ->
  level_at levels (Z.of_nat k) = Some lv ->
  test lv = true ->
  (forall j, (k < j < n)%nat ->
             exists lvj, level_at levels (Z.of_nat j) = Some lvj /\
                         test lvj = false) ->
  scan_down levels test n = Normal (Some (Z.of_nat k)).
Proof.
  induction n as [|n IH]; intros Hk Hlv Ht Habove; [lia|].
  simpl. destruct (Nat.eq_dec k n) as [->|Hne].
  - now rewrite Hlv, Ht.
  - destruct (Habove n) as (lvn & -> & ->); [lia|].
    apply IH; auto; [lia|]. intros j Hj. apply Habove. lia.
Qed.

Lemma scan_down_none levels test (n : nat) :
  (forall j, (j < n)%nat ->
             exists lvj, level_at levels (Z.of_nat j) = Some lvj /\
                         test lvj = false) ->
  scan_down levels test n = Normal None.
Proof.
  induction n as [|n IH]; intros Hall; [reflexivity|].
  simpl. destruct (Hall n) as (lvn & -> & ->); [lia|].
  apply IH. intros j Hj. apply Hall. lia.
Qed.

(** What a loop returns, it found: the index is in range and its level
    passes the test. *)
Lemma scan_down_sound levels test (n : nat) i :
  scan_down levels test n = Normal (Some i) ->
  exists lv, 0 <= i < Z.of_nat n /\ level_at levels i = Some lv /\
             test lv = true.
Proof.
  induction n as [|n IH]; simpl; [discriminate|].
  destruct (level_at levels (Z.of_nat n)) as [lv|] eqn:E; [|discriminate].
  destruct (test lv) eqn:T.
  - intros [= <-]. exists lv. repeat split; auto; lia.
  - intros H. destruct (IH H) as (lv' & ? & ? & ?). exists lv'.
    repeat split; auto; lia.
Qed.

Lemma scan_down_ext levels test test' (n : nat) :
  (forall lv, test lv = test' lv) ->
  scan_down levels test n = scan_down levels test' n.
Proof.
  intros E. induction n as [|n IH]; simpl; auto.
  destruct (level_at levels (Z.of_nat n)); auto. now rewrite E, IH.
Qed.

(** Indices of [Z], as the loops of the source count. *)
Lemma scan_down_returns levels test (maxAutoLevel i : Z) lv :
  0 <= i <= maxAutoLevel ->
  level_at levels i = Some lv ->
  test lv = true ->
  (forall j, i < j <= maxAutoLevel ->
             exists lvj, level_at levels j = Some lvj /\ test lvj = false) ->
  scan_down levels test (Z.to_nat (maxAutoLevel + 1)) = Normal (Some i).
Proof.
  intros Hi Hlv Ht Habove.
  rewrite <- (Z2Nat.id i) by lia.
  apply scan_down_found with (lv := lv); auto.
  - lia.
  - now rewrite Z2Nat.id by lia.
  - intros j Hj. apply Habove. lia.
Qed.

Lemma scan_down_fails levels test (maxAutoLevel : Z) :
  (forall j, 0 <= j <= maxAutoLevel ->
             exists lvj, level_at levels j = Some lvj /\ test lvj = false) ->
  scan_down levels test (Z.to_nat (maxAutoLevel + 1)) = Normal None.
Proof.
  intros Hall. apply scan_down_none. intros j Hj. apply Hall. lia.
Qed.

Section Selection.

Context {collaborators : Collaborators}.

Lemma fetched_in_time_eqv d d' e e' a a' lv :
  Num.eqv d d' -> Num.eqv e e' -> Num.eqv a a' ->
  fetched_in_time d e a lv = fetched_in_time d' e' a' lv.
Proof.
  intros. unfold fetched_in_time, fetchTime.
  apply ltb_eqv; auto. apply div_eqv; auto. apply mul_eqv; auto.
  apply eqv_refl.
Qed.

Lemma rebuilds_buffer_eqv d d' e e' a a' lv :
  Num.eqv d d' -> Num.eqv e e' -> Num.eqv a a' ->
  rebuilds_buffer d e a lv = rebuilds_buffer d' e' a' lv.
Proof.
  intros. unfold rebuilds_buffer, fetchTime, Num.gtb.
  apply ltb_eqv; [apply eqv_refl|].
  apply add_eqv; [apply mul_eqv; auto; apply eqv_refl|].
  apply sub_eqv; auto. apply div_eqv; auto. apply mul_eqv; auto.
  apply eqv_refl.
Qed.

Lemma selectLevel_eqv levels m d d' e e' a a' st :
  Num.eqv d d' -> Num.eqv e e' -> Num.eqv a a' ->
  selectLevel levels m d e a st = selectLevel levels m d' e' a' st.
Proof.
  intros Hd He Ha. unfold selectLevel, Num.gtb.
  rewrite (ltb_eqv n0 n0 a a' (eqv_refl _) Ha).
  rewrite (scan_down_ext levels (fetched_in_time d e a)
                         (fetched_in_time d' e' a')),
          (scan_down_ext levels (rebuilds_buffer d e a)
                         (rebuilds_buffer d' e' a')); auto.
  - intros lv. now apply rebuilds_buffer_eqv.
  - intros lv. now apply fetched_in_time_eqv.
Qed.

Lemma selectLevel_first levels m d e a st i :
  (a >? n0)%js = true ->
  scan_down levels (fetched_in_time d e a) (Z.to_nat (m + 1))
    = Normal (Some i) ->
  selectLevel levels m d e a st = (st, Normal i).
Proof.
  intros Ha Hscan. unfold selectLevel, bind, lift, ret.
  now rewrite Ha, Hscan.
Qed.

Lemma selectLevel_second levels m d e a st i :
  (a >? n0)%js = false \/
  scan_down levels (fetched_in_time d e a) (Z.to_nat (m + 1))
    = Normal None ->
  scan_down levels (rebuilds_buffer d e a) (Z.to_nat (m + 1))
    = Normal (Some i) ->
  selectLevel levels m d e a st = (st, Normal i).
Proof.
  intros Hfirst Hscan. unfold selectLevel, bind, lift, ret.
  destruct Hfirst as [Ha|Hnone].
  - now rewrite Ha, Hscan.
  - rewrite Hnone, Hscan. now destruct (a >? n0)%js.
Qed.

Lemma selectLevel_last levels m d e a w this :
  (a >? n0)%js = false \/
  scan_down levels (fetched_in_time d e a) (Z.to_nat (m + 1))
    = Normal None ->
  scan_down levels (rebuilds_buffer d e a) (Z.to_nat (m + 1))
    = Normal None ->
  selectLevel levels m d e a (w, this)
  = ((with_effects w (Warn warn_no_level :: effects w), this), Normal 0).
Proof.
  intros Hfirst Hscan. unfold selectLevel, bind, lift, ret.
  destruct Hfirst as [Ha|Hnone].
  - now rewrite Ha, Hscan.
  - rewrite Hnone, Hscan. now destruct (a >? n0)%js.
Qed.

(** With no level forced, the getter is the selection on the estimate. *)
Lemma nextAutoLevel_unforced w this est r frag :
  _nextAutoLevel this = -1 ->
  bwEstimator this = Some est ->
  fragCurrent this = Some r ->
  nth_error (heap w) r = Some frag ->
  nextAutoLevel (w, this)
  = selectLevel (levels w) (maxAutoLevel w this) (Frag.duration frag)
                (getEstimate est) (availableFetchTime w frag) (w, this).
Proof.
  intros Hforced Hest Hcur Hfrag.
  unfold nextAutoLevel, bind, getWorld, getThis, deref, defined, ret, bind,
    getWorld; simpl.
  rewrite Hforced, Hest, Hcur; simpl. now rewrite Hfrag.
Qed.

End Selection.

Section NextLevel.

Context {collaborators : Collaborators}.

(** A ladder of three levels whose bitrates are as in the scenarios of
    the specification. *)
Lemma scenario_ladder (l : list Level) :
  map bitrate l = [Fin 500000; Fin 1000000; Fin 2000000] ->
  exists d0 d1 d2,
    l = [Build_Level (Fin 500000) d0; Build_Level (Fin 1000000) d1;
         Build_Level (Fin 2000000) d2].
Proof.
  destruct l as [|[b0 d0] [|[b1 d1] [|[b2 d2] [|]]]]; simpl; try discriminate.
  intros [= -> -> ->]. now exists d0, d1, d2.
Qed.

(** C1.  Comfortable case of the next-level selection.  With no level
    forced, the estimator built and a current fragment, whenever
    [availableFetchTime > 0] the getter returns the highest index [i] at
    or below [maxAutoLevel] whose [fetchTime = bitrate * duration /
    estimate] is strictly below [availableFetchTime] (the levels above it
    exist and are not fetched in time), and it changes nothing.  In
    particular, for the ladder [500k, 1000k, 2000k] with a duration of 6
    s, an estimate of 1500 kbit/s, no cap and [availableFetchTime = 5] it
    returns 1. *)
Theorem nextAutoLevel_comfortable_case :
  (forall w this est r frag i lv,
      let available := availableFetchTime w frag in
      let in_time :=
        fetched_in_time (Frag.duration frag) (getEstimate est) available in
      _nextAutoLevel this = -1 ->
      bwEstimator this = Some est ->
      fragCurrent this = Some r ->
      nth_error (heap w) r = Some frag ->
      (available >? n0)%js = true ->
      0 <= i <= maxAutoLevel w this ->
      level_at (levels w) i = Some lv ->
      in_time lv = true ->
      (forall j, i < j <= maxAutoLevel w this ->
                 exists lvj, level_at (levels w) j = Some lvj /\
                             in_time lvj = false) ->
      nextAutoLevel (w, this) = ((w, this), Normal i))
  /\
  (forall w this est r frag l,
      _nextAutoLevel this = -1 ->
      _autoLevelCapping this = -1 ->
      bwEstimator this = Some est ->
      fragCurrent this = Some r ->
      nth_error (heap w) r = Some frag ->
      levels w = Some l ->
      map bitrate l = [Fin 500000; Fin 1000000; Fin 2000000] ->
      Num.eqv (Frag.duration frag) (Fin 6) ->
      Num.eqv (getEstimate est) (Fin 1500000) ->
      Num.eqv (availableFetchTime w frag) (Fin 5) ->
      nextAutoLevel (w, this) = ((w, this), Normal 1)).
Proof.
  split.
  - intros w this est r frag i lv available in_time
           Hforced Hest Hcur Hfrag Hpos Hi Hlv Hfit Habove.
    rewrite (nextAutoLevel_unforced w this est r frag) by assumption.
    apply selectLevel_first; [exact Hpos|].
    now apply scan_down_returns with (lv := lv).
  - intros w this est r frag l Hforced Hcap Hest Hcur Hfrag Hlevels Hl
           Hd He Ha.
    rewrite (nextAutoLevel_unforced w this est r frag) by assumption.
    rewrite (selectLevel_eqv _ _ _ _ _ _ _ _ _ Hd He Ha).
    destruct (scenario_ladder l Hl) as (d0 & d1 & d2 & ->).
    unfold maxAutoLevel. rewrite Hlevels, Hcap. reflexivity.
Qed.

(** C2.  Recovery case and last resort.  When the comfortable case does
    not apply ([availableFetchTime > 0] is false, or no level up to
    [maxAutoLevel] is fetched in time), the getter returns the highest
    index whose level satisfies
    [0.5 * availableFetchTime + (duration - fetchTime) > 0]; when no level
    does, it logs a warning and returns 0, without throwing.  In
    particular, for the ladder [500k, 1000k, 2000k] with an estimate of
    100 kbit/s and [availableFetchTime = -3] it returns 0. *)
Theorem nextAutoLevel_recovery_and_fallback :
  (forall w this est r frag,
      let available := availableFetchTime w frag in
      let in_time :=
        fetched_in_time (Frag.duration frag) (getEstimate est) available in
      let recovers :=
        rebuilds_buffer (Frag.duration frag) (getEstimate est) available in
      _nextAutoLevel this = -1 ->
      bwEstimator this = Some est ->
      fragCurrent this = Some r ->
      nth_error (heap w) r = Some frag ->
      ((available >? n0)%js = false \/
       (forall j, 0 <= j <= maxAutoLevel w this ->
                  exists lvj, level_at (levels w) j = Some lvj /\
                              in_time lvj = false)) ->
      (forall i lv,
          0 <= i <= maxAutoLevel w this ->
          level_at (levels w) i = Some lv ->
          recovers lv = true ->
          (forall j, i < j <= maxAutoLevel w this ->
                     exists lvj, level_at (levels w) j = Some lvj /\
                                 recovers lvj = false) ->
          nextAutoLevel (w, this) = ((w, this), Normal i))
      /\
      ((forall j, 0 <= j <= maxAutoLevel w this ->
                  exists lvj, level_at (levels w) j = Some lvj /\
                              recovers lvj = false) ->
       nextAutoLevel (w, this)
       = ((with_effects w (Warn warn_no_level :: effects w), this),
          Normal 0)))
  /\
  (forall w this est r frag l,
      _nextAutoLevel this = -1 ->
      _autoLevelCapping this = -1 ->
      bwEstimator this = Some est ->
      fragCurrent this = Some r ->
      nth_error (heap w) r = Some frag ->
      levels w = Some l ->
      map bitrate l = [Fin 500000; Fin 1000000; Fin 2000000] ->
      Num.eqv (Frag.duration frag) (Fin 6) ->
      Num.eqv (getEstimate est) (Fin 100000) ->
      Num.eqv (availableFetchTime w frag) (Fin (-3)) ->
      nextAutoLevel (w, this)
      = ((with_effects w (Warn warn_no_level :: effects w), this),
         Normal 0)).
Proof.
  split.
  - intros w this est r frag available in_time recovers
           Hforced Hest Hcur Hfrag Hfirst.
    assert (Hfirst' :
              (available >? n0)%js = false \/
              scan_down (levels w) in_time
                        (Z.to_nat (maxAutoLevel w this + 1)) = Normal None).
    { destruct Hfirst as [H|H]; [now left|right].
      now apply scan_down_fails. }
    split.
    + intros i lv Hi Hlv Hrec Habove.
      rewrite (nextAutoLevel_unforced w this est r frag) by assumption.
      apply selectLevel_second; [exact Hfirst'|].
      now apply scan_down_returns with (lv := lv).
    + intros Hall.
      rewrite (nextAutoLevel_unforced w this est r frag) by assumption.
      apply selectLevel_last; [exact Hfirst'|].
      now apply scan_down_fails.
  - intros w this est r frag l Hforced Hcap Hest Hcur Hfrag Hlevels Hl
           Hd He Ha.
    rewrite (nextAutoLevel_unforced w this est r frag) by assumption.
    rewrite (selectLevel_eqv _ _ _ _ _ _ _ _ _ Hd He Ha).
    destruct (scenario_ladder l Hl) as (d0 & d1 & d2 & ->).
    unfold maxAutoLevel. rewrite Hlevels, Hcap. reflexivity.
Qed.

End NextLevel.

Lemma nextAutoLevel_comfortable_case_witness :
  @nextAutoLevel example_collaborators (example_loading 1500000 17 1)
  = (example_loading 1500000 17 1, Normal 1).
Proof.
  refine (proj1 (@nextAutoLevel_comfortable_case example_collaborators)
            (fst (example_loading 1500000 17 1))
            (snd (example_loading 1500000 17 1))
            (new_estimator (Fin 15) (Fin 4) (Fin 1500000)) 0%nat
            (Frag.set_trequest (example_frag 1) (Fin 0)) 1
            (vod_level 1000000) _ _ _ _ _ _ _ _ _);
    try reflexivity.
  - vm_compute. split; discriminate.
  - intros j Hj.
    assert (Hmax : maxAutoLevel (fst (example_loading 1500000 17 1))
                                (snd (example_loading 1500000 17 1)) = 2)
      by reflexivity.
    rewrite Hmax in Hj. assert (j = 2) as -> by lia.
    exists (vod_level 2000000). split; reflexivity.
Defined.

Lemma nextAutoLevel_recovery_and_fallback_witness :
  @nextAutoLevel example_collaborators (example_loading 1000000 (97 # 8) 1)
  = (example_loading 1000000 (97 # 8) 1, Normal 1)
  /\
  @nextAutoLevel example_collaborators (example_loading 100000 9 1)
  = ((with_effects (fst (example_loading 100000 9 1))
        [Warn warn_no_level],
      snd (example_loading 100000 9 1)), Normal 0).
Proof.
  split.
  - assert (Hmax : maxAutoLevel (fst (example_loading 1000000 (97 # 8) 1))
                                (snd (example_loading 1000000 (97 # 8) 1)) = 2)
      by reflexivity.
    refine (proj1 (proj1 (@nextAutoLevel_recovery_and_fallback
                            example_collaborators)
                         (fst (example_loading 1000000 (97 # 8) 1))
                         (snd (example_loading 1000000 (97 # 8) 1))
                         (new_estimator (Fin 15) (Fin 4) (Fin 1000000)) 0%nat
                         (Frag.set_trequest (example_frag 1) (Fin 0))
                         eq_refl eq_refl eq_refl eq_refl _)
                  1 (vod_level 1000000) _ eq_refl eq_refl _).
    + right. intros j Hj. rewrite Hmax in Hj.
      assert (j = 0 \/ j = 1 \/ j = 2) as [->|[->| ->]] by lia;
        eexists; split; reflexivity.
    + rewrite Hmax. lia.
    + intros j Hj. rewrite Hmax in Hj. assert (j = 2) as -> by lia.
      exists (vod_level 2000000). split; reflexivity.
  - refine (proj2 (@nextAutoLevel_recovery_and_fallback example_collaborators)
              (fst (example_loading 100000 9 1))
              (snd (example_loading 100000 9 1))
              (new_estimator (Fin 15) (Fin 4) (Fin 100000)) 0%nat
              (Frag.set_trequest (example_frag 1) (Fin 0)) ladder
              _ _ _ _ _ _ _ _ _ _);
      reflexivity.
Defined.

(** *** Fetch times and the estimate *)

Lemma Qdiv_le_antitone (x q1 q2 : Q) :
  (0 <= x)%Q -> (0 < q1)%Q -> (q1 <= q2)%Q -> (x / q2 <= x / q1)%Q.
Proof.
  intros Hx H1 H12.
  apply Qle_shift_div_l; [exact H1|].
  assert (E : (x / q2 * q1 == x * q1 / q2)%Q) by (field; lra).
  rewrite E. apply Qle_shift_div_r; [lra|]. nra.
Qed.

Lemma by_sign_pos {A : Type} (q : Q) (a b c : A) :
  (0 < q)%Q -> Num.by_sign q a b c = c.
Proof.
  intros H. unfold Num.by_sign.
  now rewrite (proj1 (Qgt_alt q 0) H).
Qed.

Lemma fetchTime_finite lv (b d q : Q) :
  bitrate lv = Fin b -> (0 < q)%Q ->
  fetchTime lv (Fin d) (Fin q) = Fin (b * d / q).
Proof.
  intros Hb Hq. unfold fetchTime. rewrite Hb. simpl.
  now rewrite by_sign_pos.
Qed.

Lemma ltb_fin_l_mono (x x' : Q) (a : num) :
  (x' <= x)%Q -> (Fin x <? a)%js = true -> (Fin x' <? a)%js = true.
Proof.
  destruct a as [y| | |]; auto.
  rewrite !ltb_fin. lra.
Qed.

(** A larger estimate keeps a level that was fetched in time, and one that
    rebuilt the buffer. *)
Lemma fetched_in_time_estimate lv (b d q1 q2 : Q) (a : num) :
  bitrate lv = Fin b -> (0 <= b)%Q -> (0 <= d)%Q ->
  (0 < q1)%Q -> (q1 <= q2)%Q ->
  fetched_in_time (Fin d) (Fin q1) a lv = true ->
  fetched_in_time (Fin d) (Fin q2) a lv = true.
Proof.
  intros Hb Hb0 Hd H1 H12. unfold fetched_in_time.
  rewrite (fetchTime_finite lv b d q1), (fetchTime_finite lv b d q2)
    by (auto; lra).
  apply ltb_fin_l_mono. apply Qdiv_le_antitone; auto.
  now apply Qmult_le_0_compat.
Qed.

Lemma rebuilds_buffer_estimate lv (b d q1 q2 : Q) (a : num) :
  bitrate lv = Fin b -> (0 <= b)%Q -> (0 <= d)%Q ->
  (0 < q1)%Q -> (q1 <= q2)%Q ->
  rebuilds_buffer (Fin d) (Fin q1) a lv = true ->
  rebuilds_buffer (Fin d) (Fin q2) a lv = true.
Proof.
  intros Hb Hb0 Hd H1 H12. unfold rebuilds_buffer, Num.gtb.
  rewrite (fetchTime_finite lv b d q1), (fetchTime_finite lv b d q2)
    by (auto; lra).
  assert (Hle : (b * d / q2 <= b * d / q1)%Q).
  { apply Qdiv_le_antitone; auto. now apply Qmult_le_0_compat. }
  destruct a as [y| | |]; auto.
  unfold n0_5, n0, Num.sub. cbn [Num.mul Num.add Num.neg].
  rewrite !ltb_fin. lra.
Qed.

(** With two fragment durations to spare, a level that rebuilds the buffer
    is also fetched in time. *)
Lemma rebuilds_buffer_fetched_in_time lv (b d q : Q) (a : num) :
  bitrate lv = Fin b -> (0 < q)%Q ->
  (a >? n0)%js = true ->
  (a <? n2 * Fin d)%js = false ->
  rebuilds_buffer (Fin d) (Fin q) a lv = true ->
  fetched_in_time (Fin d) (Fin q) a lv = true.
Proof.
  intros Hb Hq Hpos Hbig. unfold rebuilds_buffer, fetched_in_time, Num.gtb.
  rewrite (fetchTime_finite lv b d q) by auto.
  destruct a as [y| | |]; try discriminate; auto.
  unfold n0_5, n0, n2, Num.sub in *. cbn [Num.mul Num.add Num.neg] in *.
  rewrite !ltb_fin. apply ltb_fin_false in Hbig. lra.
Qed.

(** *** Comparing two runs of a loop *)

Lemma scan_down_total levels test (n : nat) :
  (forall j, (j < n)%nat -> level_at levels (Z.of_nat j) <> None) ->
  exists found, scan_down levels test n = Normal found.
Proof.
  induction n as [|n IH]; intros Hall; simpl; [now eexists|].
  destruct (level_at levels (Z.of_nat n)) as [lv|] eqn:E.
  - destruct (test lv); [now eexists|]. apply IH. intros j Hj.
    apply Hall. lia.
  - now destruct (Hall n); [lia|].
Qed.

Lemma scan_down_none_inv levels test (n : nat) :
  scan_down levels test n = Normal None ->
  forall j lv, (j < n)%nat -> level_at levels (Z.of_nat j) = Some lv ->
               test lv = false.
Proof.
  induction n as [|n IH]; simpl; intros Hscan j lv Hj Hlv; [lia|].
  destruct (level_at levels (Z.of_nat n)) as [lvn|] eqn:E; [|discriminate].
  destruct (test lvn) eqn:T; [discriminate|].
  destruct (Nat.eq_dec j n) as [->|Hne].
  - congruence.
  - apply IH with (j := j); auto. lia.
Qed.

Lemma scan_down_mono levels test1 test2 (n : nat) i1 found2 :
  (forall j lv, (j < n)%nat -> level_at levels (Z.of_nat j) = Some lv ->
                test1 lv = true -> test2 lv = true) ->
  scan_down levels test1 n = Normal (Some i1) ->
  scan_down levels test2 n = Normal found2 ->
  exists i2, found2 = Some i2 /\ i1 <= i2.
Proof.
  induction n as [|n IH]; simpl; intros Himp H1 H2; [discriminate|].
  destruct (level_at levels (Z.of_nat n)) as [lv|] eqn:E; [|discriminate].
  destruct (test1 lv) eqn:T1.
  - rewrite (Himp n lv) in H2 by (auto; lia).
    injection H1 as <-. injection H2 as <-. eexists; split; eauto. lia.
  - destruct (test2 lv) eqn:T2.
    + injection H2 as <-. destruct (scan_down_sound _ _ _ _ H1) as (? & ? & _).
      eexists; split; eauto. lia.
    + apply IH; auto. intros j lvj Hj. apply Himp. lia.
Qed.

Section Monotonicity.

Context {collaborators : Collaborators}.

(** The value [selectLevel] returns, from what its two loops find. *)
Lemma selectLevel_value levels m d e a st first second :
  scan_down levels (fetched_in_time d e a) (Z.to_nat (m + 1))
    = Normal first ->
  scan_down levels (rebuilds_buffer d e a) (Z.to_nat (m + 1))
    = Normal second ->
  snd (selectLevel levels m d e a st)
  = Normal match (if (a >? n0)%js then first else None) with
           | Some i => i
           | None => match second with Some i => i | None => 0 end
           end.
Proof.
  intros H1 H2. unfold selectLevel, bind, lift, ret, emit, bind, getWorld,
    putWorld.
  rewrite H1, H2.
  destruct (a >? n0)%js, first, second; reflexivity.
Qed.

Lemma scan_down_nonneg levels test (n : nat) found :
  scan_down levels test n = Normal found ->
  0 <= match found with Some i => i | None => 0 end.
Proof.
  destruct found as [i|]; [|lia].
  intros H. destruct (scan_down_sound _ _ _ _ H) as (_ & ? & _). lia.
Qed.

(** C5, as amended.  For positive estimates [q1 <= q2], non-negative
    bitrates and duration and [maxAutoLevel] within the ladder, the getter
    returns under both estimates, and the index under [q2] is at least the
    index under [q1], provided [availableFetchTime > 0] is false (both
    answers come from the second loop), or [availableFetchTime] is at
    least two fragment durations, or some level is already fetched in
    time under [q1]. *)
Theorem selection_monotonic_outside_recovery_window
        w this est1 est2 r frag (d q1 q2 : Q) :
  let available := availableFetchTime w frag in
  _nextAutoLevel this = -1 ->
  fragCurrent this = Some r ->
  nth_error (heap w) r = Some frag ->
  Frag.duration frag = Fin d -> (0 <= d)%Q ->
  getEstimate est1 = Fin q1 -> getEstimate est2 = Fin q2 ->
  (0 < q1)%Q -> (q1 <= q2)%Q ->
  (forall j, 0 <= j <= maxAutoLevel w this ->
             exists lv b, level_at (levels w) j = Some lv /\
                          bitrate lv = Fin b /\ (0 <= b)%Q) ->
  ((available >? n0)%js = false \/
   (available <? n2 * Fin d)%js = false \/
   (exists j lv, 0 <= j <= maxAutoLevel w this /\
                 level_at (levels w) j = Some lv /\
                 fetched_in_time (Fin d) (Fin q1) available lv = true)) ->
  exists i1 i2,
    selected (w, set_bwEstimator this (Some est1)) i1 /\
    selected (w, set_bwEstimator this (Some est2)) i2 /\
    i1 <= i2.
Proof.
  intros available Hforced Hcur Hfrag Hd Hd0 He1 He2 Hq1 Hq12 Hlevels Hcase.
  set (m := maxAutoLevel w this) in *.
  set (n := Z.to_nat (m + 1)).
  assert (Hlv : forall j, (j < n)%nat ->
                          exists lv b, level_at (levels w) (Z.of_nat j) = Some lv /\
                                       bitrate lv = Fin b /\ (0 <= b)%Q).
  { intros j Hj. apply Hlevels. subst n. lia. }
  assert (Hdef : forall j, (j < n)%nat ->
                           level_at (levels w) (Z.of_nat j) <> None).
  { intros j Hj. destruct (Hlv j Hj) as (lv & b & -> & _). discriminate. }
  destruct (scan_down_total (levels w)
              (fetched_in_time (Fin d) (Fin q1) available) n Hdef)
    as [first1 F1].
  destruct (scan_down_total (levels w)
              (fetched_in_time (Fin d) (Fin q2) available) n Hdef)
    as [first2 F2].
  destruct (scan_down_total (levels w)
              (rebuilds_buffer (Fin d) (Fin q1) available) n Hdef)
    as [second1 S1].
  destruct (scan_down_total (levels w)
              (rebuilds_buffer (Fin d) (Fin q2) available) n Hdef)
    as [second2 S2].
  eexists. eexists. split; [|split].
  - unfold selected.
    rewrite (nextAutoLevel_unforced w _ est1 r frag) by auto.
    rewrite Hd, He1.
    apply (selectLevel_value _ _ _ _ _ _ first1 second1); assumption.
  - unfold selected.
    rewrite (nextAutoLevel_unforced w _ est2 r frag) by auto.
    rewrite Hd, He2.
    apply (selectLevel_value _ _ _ _ _ _ first2 second2); assumption.
  - fold available.
    assert (Hfirst : forall i1, first1 = Some i1 ->
                                exists i2, first2 = Some i2 /\ i1 <= i2).
    { intros i1 ->.
      apply (scan_down_mono (levels w)
               (fetched_in_time (Fin d) (Fin q1) available)
               (fetched_in_time (Fin d) (Fin q2) available) n); auto.
      intros j lv Hj Hl. destruct (Hlv j Hj) as (lv' & b & Hl' & Hb & Hb0).
      assert (lv' = lv) as -> by congruence.
      now apply fetched_in_time_estimate with (b := b). }
    assert (Hsecond : forall i1, second1 = Some i1 ->
                                 exists i2, second2 = Some i2 /\ i1 <= i2).
    { intros i1 ->.
      apply (scan_down_mono (levels w)
               (rebuilds_buffer (Fin d) (Fin q1) available)
               (rebuilds_buffer (Fin d) (Fin q2) available) n); auto.
      intros j lv Hj Hl. destruct (Hlv j Hj) as (lv' & b & Hl' & Hb & Hb0).
      assert (lv' = lv) as -> by congruence.
      now apply rebuilds_buffer_estimate with (b := b). }
    pose proof (scan_down_nonneg _ _ _ _ F2) as N1.
    pose proof (scan_down_nonneg _ _ _ _ S2) as N2.
    destruct (available >? n0)%js eqn:Hpos.
    + destruct first1 as [i1|].
      * destruct (Hfirst i1 eq_refl) as (i2 & -> & ?). assumption.
      * (* nothing is fetched in time under the lower estimate *)
        assert (second1 = None) as ->.
        { destruct Hcase as [H|[Hbig|(j & lv & Hj & Hl & Hin)]];
            [discriminate| |].
          - destruct second1 as [i|]; [|reflexivity].
            destruct (scan_down_sound _ _ _ _ S1) as (lv & Hi & Hl & Hrec).
            destruct (Hlv (Z.to_nat i)) as (lv' & b & Hl' & Hb & _);
              [lia|].
            rewrite Z2Nat.id in Hl' by lia.
            assert (lv' = lv) as -> by congruence.
            apply (rebuilds_buffer_fetched_in_time lv b d q1) in Hrec; auto.
            rewrite (scan_down_none_inv _ _ _ F1 (Z.to_nat i) lv) in Hrec;
              [discriminate|lia|].
            now rewrite Z2Nat.id by lia.
          - rewrite (scan_down_none_inv _ _ _ F1 (Z.to_nat j) lv) in Hin;
              [discriminate|subst n; lia|].
            now rewrite Z2Nat.id by lia. }
        destruct first2 as [i2|]; [exact N1|exact N2].
    + destruct second1 as [i1|]; [|exact N2].
      destruct (Hsecond i1 eq_refl) as (i2 & -> & ?). assumption.
Qed.

End Monotonicity.

(** C5, as stated, fails: with 0.125 s of fetch time available, an
    estimate of 1 Mbit/s selects level 1 (second loop) and an estimate of
    48 Mbit/s selects level 0 (first loop). *)
Lemma selection_not_monotonic_in_estimate :
  ~ @monotonic_in_estimate example_collaborators
      (fst (example_loading 1000000 (97 # 8) 1))
      (snd (example_loading 1000000 (97 # 8) 1))
      (new_estimator (Fin 15) (Fin 4) (Fin 1000000))
      (new_estimator (Fin 15) (Fin 4) (Fin 48000000)).
Proof.
  intros H.
  specialize (H 1 0 1000000%Q 48000000%Q eq_refl eq_refl).
  assert (1 <= 0); [|lia].
  apply H; [|reflexivity|reflexivity].
  unfold Qle; simpl; lia.
Qed.

Lemma selection_monotonic_outside_recovery_window_witness :
  exists i1 i2,
    @selected example_collaborators
       (fst (example_loading 1000000 17 1),
        set_bwEstimator (snd (example_loading 1000000 17 1))
                        (Some (new_estimator (Fin 15) (Fin 4) (Fin 1000000)))) i1 /\
    @selected example_collaborators
       (fst (example_loading 1000000 17 1),
        set_bwEstimator (snd (example_loading 1000000 17 1))
                        (Some (new_estimator (Fin 15) (Fin 4) (Fin 1500000)))) i2 /\
    i1 <= i2.
Proof.
  refine (@selection_monotonic_outside_recovery_window example_collaborators
            (fst (example_loading 1000000 17 1))
            (snd (example_loading 1000000 17 1))
            (new_estimator (Fin 15) (Fin 4) (Fin 1000000))
            (new_estimator (Fin 15) (Fin 4) (Fin 1500000))
            0%nat (Frag.set_trequest (example_frag 1) (Fin 0))
            6 1000000 1500000 _ _ _ _ _ _ _ _ _ _ _);
    try reflexivity; try (unfold Qle, Qlt; simpl; lia).
  - intros j Hj.
    assert (Hmax : maxAutoLevel (fst (example_loading 1000000 17 1))
                                (snd (example_loading 1000000 17 1)) = 2)
      by reflexivity.
    rewrite Hmax in Hj.
    assert (j = 0 \/ j = 1 \/ j = 2) as [->|[->| ->]] by lia;
      eexists; eexists; (split; [reflexivity|split; [reflexivity|]]);
      unfold Qle; simpl; lia.
  - right. right. exists 0, (vod_level 500000).
    split; [vm_compute; split; discriminate|]. split; reflexivity.
Defined.

(** *** Disarming the timer *)

Lemma clearTimer_idle w this :
  timer this = None -> clearTimer (w, this) = ((w, this), Normal tt).
Proof.
  intros H. unfold clearTimer, bind, getThis; simpl. now rewrite H.
Qed.

Lemma clearTimer_armed w this id :
  timer this = Some id ->
  clearTimer (w, this)
  = ((with_intervals w (filter (fun j => negb (Pos.eqb j id)) (intervals w))
                     (lastTimerId w),
      set_timer this None), Normal tt).
Proof.
  intros H. unfold clearTimer, bind, getThis; simpl. now rewrite H.
Qed.

(** Whatever the state, [clearTimer] completes, leaves no handle in
    [this.timer], has cleared the interval it held, and touches nothing
    else. *)
Lemma clearTimer_spec w this :
  let st' := fst (clearTimer (w, this)) in
  snd (clearTimer (w, this)) = Normal tt /\
  timer (snd st') = None /\
  (forall id, timer this = Some id -> ~ In id (intervals (fst st'))) /\
  (timer this = None -> intervals (fst st') = intervals w) /\
  (forall id, timer this = Some id -> intervals w = [id] ->
              intervals (fst st') = []) /\
  effects (fst st') = effects w /\
  heap (fst st') = heap w /\
  bwEstimator (snd st') = bwEstimator this /\
  fragCurrent (snd st') = fragCurrent this /\
  _nextAutoLevel (snd st') = _nextAutoLevel this /\
  _autoLevelCapping (snd st') = _autoLevelCapping this /\
  lastLoadedFragLevel (snd st') = lastLoadedFragLevel this.
Proof.
  destruct (timer this) as [id|] eqn:E.
  - rewrite (clearTimer_armed w this id E); simpl.
    repeat split; auto; try discriminate.
    + intros id' [= <-] Hin. apply filter_In in Hin as [_ Hne].
      now rewrite Pos.eqb_refl in Hne.
    + intros id' [= <-] ->. simpl. now rewrite Pos.eqb_refl.
  - rewrite (clearTimer_idle w this E); simpl.
    repeat split; auto; discriminate.
Qed.

(** Running the primitives of a method on a state at hand. *)
Ltac run_method :=
  cbv beta iota zeta delta
      [bind ret lift defined getWorld getThis putWorld assign emit deref
       sample write_trequest setInterval clearInterval];
  cbn [fst snd].

Section Abandon.

Context {collaborators : Collaborators}.

(** C3.  The abandon-rules check cancels nothing and feeds the estimator
    nothing unless the request in flight was auto-selected at a level
    other than 0, playback advances (or nothing has been decoded yet),
    more than [500 * duration / |rate|] ms have elapsed since the request,
    [bufferStarvationDelay < 2 * duration / |rate|] and
    [fragLoadedDelay > bufferStarvationDelay].  When one of them fails the
    estimator is the same afterwards and the only effect the check may
    have recorded is the warning of a destroyed or aborted loader. *)
Theorem abandonRulesCheck_needs_all_conditions (st : state) :
  abandon_allowed st = false ->
  let st' := fst (abandonRulesCheck st) in
  bwEstimator (snd st') = bwEstimator (snd st) /\
  (forall e, In e (effects (fst st')) ->
             In e (effects (fst st)) \/ e = Warn warn_destroyed).
Proof.
  destruct st as [w this]. unfold abandon_allowed, monitored.
  unfold abandonRulesCheck. run_method.
  destruct (fragCurrent this) as [r|]; run_method; [|auto].
  destruct (nth_error (heap w) r) as [frag|]; run_method; [|auto].
  intros Hnot.
  destruct (loader_gone frag).
  - pose proof (clearTimer_spec (with_effects w (Warn warn_destroyed :: effects w)) this)
      as (_ & _ & _ & _ & _ & He & _ & Hest & _).
    simpl in He. cbn [fst snd]. split; [exact Hest|].
    intros e. rewrite He. intros [<-|Hin]; auto.
  - unfold abandon_conditions in Hnot.
    destruct (media w) as [v|]; run_method; [|auto].
    unfold playing_or_starting.
    destruct (Frag.autoLevel frag), (Frag.level frag =? 0),
      ((negb (paused v) && Num.nonzero (playbackRate v))
       || (readyState v =? 0)); run_method; auto.
    destruct (requestDelay w frag >? n500 * Frag.duration frag
                                     / Num.abs (playbackRate v))%js;
      run_method; auto.
    destruct (level_at (levels w) (Frag.level frag)) as [lv|]; run_method;
      auto.
    cbn [negb andb] in Hnot. rewrite Hnot. run_method. auto.
Qed.


(** In a ladder the levels below a level exist. *)
Lemma level_at_below levels (i j : Z) lv :
  level_at levels i = Some lv -> 0 <= j <= i -> level_at levels j <> None.
Proof.
  unfold level_at. destruct levels as [l|]; [|discriminate].
  destruct (i <? 0) eqn:Hi; [discriminate|]. intros Hlv Hj.
  apply Z.ltb_ge in Hi.
  destruct (j <? 0) eqn:Hj0; [apply Z.ltb_lt in Hj0; lia|].
  apply nth_error_Some.
  assert (Z.to_nat i < List.length l)%nat
    by (apply nth_error_Some; congruence).
  lia.
Qed.

Lemma fallback_search_spec levels delay bsd (n : nat) last :
  (forall j, (j < n)%nat -> level_at levels (Z.of_nat j) <> None) ->
  exists exit d,
    fallback_search levels delay bsd n last = Normal (exit, d) /\
    ((0 <= exit < Z.of_nat n /\
      (exists lv, level_at levels exit = Some lv /\ d = Some (delay lv)
                  /\ (delay lv <? bsd)%js = true) /\
      (forall j lvj, exit < j < Z.of_nat n ->
                     level_at levels j = Some lvj ->
                     (delay lvj <? bsd)%js = false))
     \/
     (exit = -1 /\
      (forall j lvj, 0 <= j < Z.of_nat n ->
                     level_at levels j = Some lvj ->
                     (delay lvj <? bsd)%js = false) /\
      match n with
      | O => d = last
      | S _ => exists lv0, level_at levels 0 = Some lv0 /\
                           d = Some (delay lv0)
      end)).
Proof.
  revert last. induction n as [|n IH]; intros last Hdef.
  - exists (-1), last. split; [reflexivity|]. right.
    repeat split; auto. intros j lvj Hj. lia.
  - cbn [fallback_search].
    destruct (level_at levels (Z.of_nat n)) as [lv|] eqn:Hlv;
      [|now destruct (Hdef n); [lia|]].
    destruct (delay lv <? bsd)%js eqn:Hd.
    + exists (Z.of_nat n), (Some (delay lv)). split; [reflexivity|]. left.
      split; [lia|]. split; [now exists lv|]. intros j lvj Hj. lia.
    + destruct (IH (Some (delay lv))) as (exit & d & Hs & Hcase).
      { intros j Hj. apply Hdef. lia. }
      exists exit, d. split; [exact Hs|].
      assert (Htop : forall j lvj, j = Z.of_nat n ->
                                   level_at levels j = Some lvj ->
                                   (delay lvj <? bsd)%js = false).
      { intros j lvj -> Hj. congruence. }
      destruct Hcase as [(Hr & Hfound & Habove)|(-> & Hall & Hlast)].
      * left. split; [lia|]. split; [exact Hfound|].
        intros j lvj Hj Hl.
        destruct (Z.eq_dec j (Z.of_nat n)); [eauto|].
        apply (Habove j); auto. lia.
      * right. split; [reflexivity|]. split.
        -- intros j lvj Hj Hl.
           destruct (Z.eq_dec j (Z.of_nat n)); [eauto|].
           apply (Hall j); auto. lia.
        -- destruct n as [|n']; [|exact Hlast].
           exists lv. split; [exact Hlv|exact Hlast].
Qed.

(** The delay the loop computes is the one of the formulas. *)
Lemma nextLoadedDelay_formula w frag lv :
  nextLoadedDelay w frag lv = candidate_delay_of w frag lv.
Proof. reflexivity. Qed.

(** C4.  The fallback search of the abandon-rules check.  Once the abort
    condition holds, the loop over the levels [frag.level - 1], ..., 0
    stops at the highest index whose
    [candidateDelay = duration * bitrate / (8 * 0.8 * loadRate)], with
    [loadRate = max(1, loaded * 1000 / requestDelay)], is below
    [bufferStarvationDelay], or runs down to -1; [candidateDelay] is then
    the delay computed last, by that formula.  The switch (the estimator sampled with the
    elapsed time and the bytes loaded, the load aborted, the timer
    cleared, [FRAG_LOAD_EMERGENCY_ABORTED] triggered with the fragment,
    [hls.nextLoadLevel] set to the index clamped to 0) happens exactly
    when that [candidateDelay] is strictly below [fragLoadedDelay];
    otherwise the check changes nothing. *)
Theorem abandonRulesCheck_fallback_search w this r frag v lv est :
  let starvation := bufferStarvationDelay w v in
  let current := fragLoadedDelay w frag lv in
  fragCurrent this = Some r ->
  nth_error (heap w) r = Some frag ->
  loader_gone frag = false ->
  media w = Some v ->
  level_at (levels w) (Frag.level frag) = Some lv ->
  abandon_conditions w frag = true ->
  bwEstimator this = Some est ->
  exists exit candidateDelay,
    fallback_search (levels w) (nextLoadedDelay w frag) starvation
                    (Z.to_nat (Frag.level frag - 1 + 1)) None
    = Normal (exit, Some candidateDelay) /\
    search_outcome (levels w) (candidate_delay_of w frag) starvation
                   (Frag.level frag - 1) exit candidateDelay /\
    if (candidateDelay <? current)%js then
      let st' := fst (abandonRulesCheck (w, this)) in
      snd (abandonRulesCheck (w, this)) = Normal tt /\
      effects (fst st')
      = [FragLoadEmergencyAborted r; LoaderAbort r; Warn warn_too_slow;
         SetNextLoadLevel (Z.max 0 exit)] ++ effects w /\
      bwEstimator (snd st')
      = Some (record_sample est (requestDelay w frag) (Frag.loaded frag)) /\
      timer (snd st') = None /\
      (forall id, timer this = Some id -> ~ In id (intervals (fst st')))
    else abandonRulesCheck (w, this) = ((w, this), Normal tt).
Proof.
  intros starvation current Hcur Hfrag Hloader Hmedia Hlv Hcond Hest.
  subst starvation current.
  unfold abandon_conditions in Hcond. rewrite Hmedia, Hlv in Hcond.
  apply andb_true_iff in Hcond as [Hcond Hlate].
  apply andb_true_iff in Hcond as [Hcond Hlow].
  apply andb_true_iff in Hcond as [Hcond Helapsed].
  apply andb_true_iff in Hcond as [Hcond Hplaying].
  apply andb_true_iff in Hcond as [Hauto Hnonzero].
  assert (Hlevel : 1 <= Frag.level frag).
  { assert (0 <= Frag.level frag).
    { unfold level_at in Hlv. destruct (levels w); [|discriminate].
      destruct (Frag.level frag <? 0) eqn:E; [discriminate|].
      now apply Z.ltb_ge in E. }
    destruct (Frag.level frag =? 0) eqn:E; [discriminate|].
    apply Z.eqb_neq in E. lia. }
  destruct (fallback_search_spec (levels w) (nextLoadedDelay w frag)
              (bufferStarvationDelay w v) (Z.to_nat (Frag.level frag - 1 + 1)) None)
    as (exit & d & Hsearch & Hcase).
  { intros j Hj. apply (level_at_below _ (Frag.level frag) _ lv); auto.
    lia. }
  assert (Hd : exists candidateDelay,
             d = Some candidateDelay /\
             search_outcome (levels w) (nextLoadedDelay w frag) (bufferStarvationDelay w v)
                            (Frag.level frag - 1) exit candidateDelay).
  { destruct Hcase as [(Hr & (lvx & Hx & -> & Hlt) & Habove)
                      |(-> & Hall & Hlast)].
    - eexists. split; [reflexivity|]. left. split; [lia|].
      split; [now exists lvx|]. split; [exact Hlt|].
      intros j lvj Hj. apply Habove. lia.
    - destruct (Z.to_nat (Frag.level frag - 1 + 1)) eqn:En; [lia|].
      destruct Hlast as (lv0 & H0 & ->).
      eexists. split; [reflexivity|]. right. split; [reflexivity|].
      split; [now exists lv0|].
      intros j lvj Hj. apply Hall. lia. }
  destruct Hd as (candidateDelay & -> & Houtcome).
  exists exit, candidateDelay.
  split; [exact Hsearch|].
  split; [exact Houtcome|].
  assert (Hrun : abandonRulesCheck (w, this)
                 = if (candidateDelay <? fragLoadedDelay w frag lv)%js then
                     ((emit (SetNextLoadLevel (Z.max 0 exit)) ;;
                       sample (requestDelay w frag) (Frag.loaded frag) ;;
                       emit (Warn warn_too_slow) ;;
                       emit (LoaderAbort r) ;;
                       clearTimer ;;
                       emit (FragLoadEmergencyAborted r)) (w, this))
                   else ((w, this), Normal tt)).
  { unfold abandonRulesCheck. run_method.
    rewrite Hcur. run_method. rewrite Hfrag. run_method.
    rewrite Hloader, Hmedia. unfold playing_or_starting.
    rewrite Hplaying, Hauto, Hnonzero. cbn [andb].
    rewrite Helapsed, Hlv. run_method.
    rewrite Hlow, Hlate. cbn [andb].
    rewrite Hsearch. cbn [fst snd undefined_ltb].
    destruct (candidateDelay <? fragLoadedDelay w frag lv)%js; reflexivity. }
  rewrite Hrun.
  destruct (candidateDelay <? fragLoadedDelay w frag lv)%js; [|reflexivity].
  run_method. rewrite Hest. run_method.
  match goal with
  | |- context [clearTimer (?w2, ?this2)] =>
      pose proof (clearTimer_spec w2 this2)
        as (Hc & Ht & Hgone & _ & _ & He & _ & Hb & _);
      destruct (clearTimer (w2, this2)) as [[w3 this3] c]
  end.
  cbn [fst snd] in *. subst c. cbn [fst snd].
  repeat split; auto.
  - cbn. now rewrite He.
Qed.

End Abandon.

(** *** Properties kept by a method *)

Lemma preserves_ret {A : Type} (I : state -> Prop) (a : A) :
  preserves I (ret a).
Proof. intros st H. exact H. Qed.

Lemma preserves_bind {A B : Type} (I : state -> Prop) (c : M A)
      (k : A -> M B) :
  preserves I c -> (forall a, preserves I (k a)) -> preserves I (bind c k).
Proof.
  intros Hc Hk st H. unfold bind. specialize (Hc st H).
  destruct (c st) as [st' [a|e]]; simpl in *; auto. now apply Hk.
Qed.

Lemma preserves_getWorld (I : state -> Prop) : preserves I getWorld.
Proof. intros st H. exact H. Qed.

Lemma preserves_getThis (I : state -> Prop) : preserves I getThis.
Proof. intros st H. exact H. Qed.

Lemma preserves_defined {A : Type} (I : state -> Prop) (x : option A) :
  preserves I (defined x).
Proof. intros st H. destruct x; exact H. Qed.

Lemma preserves_lift {A : Type} (I : state -> Prop) (c : completion A) :
  preserves I (lift c).
Proof. intros st H. exact H. Qed.

Lemma preserves_deref (I : state -> Prop) (r : ref) : preserves I (deref r).
Proof.
  apply preserves_bind; [apply preserves_getWorld|].
  intros w. apply preserves_defined.
Qed.

Create HintDb preserves.

#[local] Hint Resolve preserves_ret preserves_getWorld preserves_getThis
  preserves_defined preserves_lift preserves_deref : preserves.

Section Monitor.

Context {collaborators : Collaborators}.

Lemma invariant_emit (e : effect) : preserves monitor_invariant (emit e).
Proof. intros [w this] H. exact H. Qed.

Lemma invariant_clearTimer : preserves monitor_invariant clearTimer.
Proof.
  intros [w this] H. unfold monitor_invariant in *.
  pose proof (clearTimer_spec w this) as (_ & -> & _ & Hidle & Harmed & _).
  cbn [fst snd] in *. destruct (timer this) as [id|].
  - destruct H as (Hi & _). now apply (Harmed id).
  - now rewrite Hidle.
Qed.

Lemma invariant_sample (ms bytes : num) :
  preserves monitor_invariant (sample ms bytes).
Proof.
  intros [w this] H. unfold sample, bind, getThis, defined, assign, ret.
  cbn [fst snd].
  destruct (bwEstimator this) as [est|] eqn:E; cbn [fst snd]; [|exact H].
  unfold monitor_invariant in *. simpl in *.
  destruct (timer this); [|exact H].
  destruct H as (Hi & _ & Hf). repeat split; eauto.
Qed.

(** Assignments to the fields the invariant does not mention. *)
Lemma invariant_assign_lastLoadedFragLevel (l : Z) :
  preserves monitor_invariant (assign set_lastLoadedFragLevel l).
Proof. intros [w this] H. exact H. Qed.

Lemma invariant_assign_nextAutoLevel (l : Z) :
  preserves monitor_invariant (assign set_nextAutoLevel l).
Proof. intros [w this] H. exact H. Qed.

Lemma invariant_assign_autoLevelCapping (l : Z) :
  preserves monitor_invariant (assign set_autoLevelCapping l).
Proof. intros [w this] H. exact H. Qed.

#[local] Hint Resolve invariant_emit invariant_clearTimer invariant_sample
  invariant_assign_lastLoadedFragLevel invariant_assign_nextAutoLevel
  invariant_assign_autoLevelCapping : preserves.

Ltac preserves_step :=
  match goal with
  | |- preserves _ (bind _ _) => apply preserves_bind; [|intros ?]
  | |- preserves _ (if ?b then _ else _) => destruct b
  | |- preserves _ (match ?x with _ => _ end) => destruct x
  | |- preserves _ _ => solve [auto with preserves]
  end.

Lemma invariant_abandonRulesCheck :
  preserves monitor_invariant abandonRulesCheck.
Proof. unfold abandonRulesCheck. repeat preserves_step. Qed.

Lemma invariant_onFragLoaded data :
  preserves monitor_invariant (onFragLoaded data).
Proof. unfold onFragLoaded. repeat preserves_step. Qed.

Lemma invariant_onError data : preserves monitor_invariant (onError data).
Proof. unfold onError. repeat preserves_step. Qed.

Lemma invariant_nextAutoLevel : preserves monitor_invariant nextAutoLevel.
Proof. unfold nextAutoLevel, selectLevel. repeat preserves_step. Qed.

End Monitor.

Lemma nth_error_replace_nth {A : Type} (l : list A) (n : nat) (a b : A) :
  nth_error l n = Some b -> nth_error (replace_nth l n a) n = Some a.
Proof.
  revert n. induction l as [|h t IH]; intros [|n]; simpl; try discriminate;
    auto.
Qed.

Section Lifecycle.

Context {collaborators : Collaborators}.

Lemma invariant_onFragLoading data st :
  monitor_invariant st ->
  well_formed (FragLoading data) (fst st) ->
  monitor_invariant (fst (onFragLoading data st)).
Proof.
  destruct st as [w this]. intros Hinv (f & lv & d & Hf & Hlv & Hd).
  cbn [fst] in *. unfold monitor_invariant in *. cbn [fst snd] in Hinv.
  unfold onFragLoading. run_method. rewrite Hf. run_method.
  destruct (Frag.type f =? "main")%string; run_method;
    [|cbn [fst snd]; exact Hinv].
  destruct (timer this) as [id|] eqn:Ht; run_method.
  - destruct Hinv as (Hi & (est & He) & _).
    rewrite He. run_method. rewrite Hf. run_method.
    cbn. rewrite Ht. repeat split; eauto.
    eexists _, _. split; [reflexivity|].
    now apply nth_error_replace_nth with (b := f).
  - cbn. destruct (bwEstimator this) as [est|] eqn:He; run_method.
    + cbn. rewrite Hf. run_method. cbn. rewrite Hinv, He.
      repeat split; eauto.
      eexists _, _. split; [reflexivity|].
      now apply nth_error_replace_nth with (b := f).
    + cbn. rewrite Hlv. run_method. rewrite Hd. run_method.
      cbn. rewrite Hf. run_method. cbn. rewrite Hinv.
      repeat split; eauto.
      eexists _, _. split; [reflexivity|].
      now apply nth_error_replace_nth with (b := f).
Qed.

Lemma invariant_environment_step w w' this :
  monitor_invariant (w, this) -> environment_step w w' ->
  monitor_invariant (w', this).
Proof.
  unfold monitor_invariant. cbn [fst snd].
  intros Hinv (Hheap & Hi & _ & _). rewrite Hi.
  destruct (timer this); [|exact Hinv].
  destruct Hinv as (? & ? & r & frag & Hr & Hfrag).
  repeat split; auto.
  destruct (nth_error (heap w') r) as [frag'|] eqn:E; [eauto|].
  apply nth_error_None in E.
  assert (r < List.length (heap w))%nat
    by (apply nth_error_Some; congruence).
  lia.
Qed.

Lemma reachable_invariant st : reachable st -> monitor_invariant st.
Proof.
  induction 1 as [w Hw|w w' this _ IH Henv|c st _ IH Hwf].
  - exact Hw.
  - now apply invariant_environment_step with (w := w).
  - destruct c; cbn [run].
    + now apply invariant_onFragLoading.
    + now apply invariant_onFragLoaded.
    + now apply invariant_onError.
    + now apply invariant_abandonRulesCheck.
    + now apply invariant_clearTimer.
    + now apply invariant_assign_autoLevelCapping.
    + now apply invariant_assign_nextAutoLevel.
    + apply preserves_bind;
        [apply invariant_nextAutoLevel|intros; apply preserves_ret|exact IH].
Qed.

(** A fragment that starts loading while the timer runs leaves the timer
    alone. *)
Lemma onFragLoading_armed data w this id :
  timer this = Some id ->
  let st' := fst (onFragLoading data (w, this)) in
  intervals (fst st') = intervals w /\
  lastTimerId (fst st') = lastTimerId w /\
  timer (snd st') = Some id.
Proof.
  intros Ht. unfold onFragLoading. run_method.
  destruct (nth_error (heap w) (loading_frag data)) as [f|] eqn:Hf;
    run_method; [|auto].
  destruct (Frag.type f =? "main")%string; run_method; [|auto].
  rewrite Ht. run_method.
  destruct (bwEstimator this) as [est|]; run_method.
  - rewrite Hf. run_method. cbn. auto.
  - destruct (level_at (levels w) (Frag.level f)) as [lv|]; run_method;
      [|auto].
    destruct (details lv) as [d|]; run_method; [|auto].
    cbn. rewrite Hf. run_method. cbn. auto.
Qed.

(** C10, as amended.  In every state reached through calls in which each
    fragment that starts loading belongs to a level of [hls.levels] whose
    [details] are set ([reachable], by [well_formed]): if the timer is
    armed (a handle in [this.timer], or an interval still active in the
    runtime) the estimator is built and [this.fragCurrent] refers to a
    fragment, so that a tick reads both on defined values; the runtime
    never holds more than one interval of the controller.  In every state:
    a fragment that starts loading while the timer is armed creates no
    second timer, and [clearTimer] with no timer armed does nothing. *)
Theorem armed_timer_has_estimator_and_fragment :
  (forall st,
      reachable st ->
      timer (snd st) <> None \/ intervals (fst st) <> [] ->
      exists est r frag,
        bwEstimator (snd st) = Some est /\
        fragCurrent (snd st) = Some r /\
        nth_error (heap (fst st)) r = Some frag) /\
  (forall st,
      reachable st -> (List.length (intervals (fst st)) <= 1)%nat) /\
  (forall data w this,
      timer this <> None ->
      intervals (fst (fst (onFragLoading data (w, this)))) = intervals w /\
      timer (snd (fst (onFragLoading data (w, this)))) = timer this) /\
  (forall w this,
      timer this = None -> clearTimer (w, this) = ((w, this), Normal tt)).
Proof.
  split; [|split; [|split]].
  - intros st Hreach Harmed.
    pose proof (reachable_invariant st Hreach) as Hinv.
    unfold monitor_invariant in Hinv.
    destruct (timer (snd st)) as [id|].
    + destruct Hinv as (_ & (est & He) & r & frag & Hr & Hfrag).
      now exists est, r, frag.
    + destruct Harmed as [H|H]; contradiction.
  - intros st Hreach.
    pose proof (reachable_invariant st Hreach) as Hinv.
    unfold monitor_invariant in Hinv.
    destruct (timer (snd st)) as [id|].
    + destruct Hinv as (-> & _). simpl. lia.
    + rewrite Hinv. simpl. lia.
  - intros data w this Ht.
    destruct (timer this) as [id|] eqn:E; [|contradiction].
    destruct (onFragLoading_armed data w this id E) as (Hi & _ & Htimer).
    now split.
  - intros w this. apply clearTimer_idle.
Qed.

End Lifecycle.

Section Completion.

Context {collaborators : Collaborators}.

(** [onFragLoaded] on a fragment of type [main]. *)
Lemma onFragLoaded_main data w this frag :
  nth_error (heap w) (loaded_frag data) = Some frag ->
  Frag.type frag = "main"%string ->
  let stats := loaded_stats data in
  let finish (this0 : AbrController) :=
    let st := fst (clearTimer (w, this0)) in
    ((fst st,
      set_nextAutoLevel
        (set_lastLoadedFragLevel (snd st) (Frag.level frag)) (-1)),
     Normal tt) in
  onFragLoaded data (w, this)
  = if first_complete_load data frag then
      match bwEstimator this with
      | Some est =>
          finish (set_bwEstimator this
                    (Some (record_sample est (now w - Stats.trequest stats)%js
                                         (Stats.loaded stats))))
      | None => ((w, this), Throw TypeError)
      end
    else finish this.
Proof.
  intros Hfrag Hmain stats finish. subst stats finish.
  unfold onFragLoaded, first_complete_load. run_method.
  rewrite Hfrag. run_method. rewrite Hmain. cbn [String.eqb Ascii.eqb Bool.eqb].
  assert (Hfinish : forall w0 this0,
             (clearTimer ;;
              assign set_lastLoadedFragLevel (Frag.level frag) ;;
              assign set_nextAutoLevel (-1)) (w0, this0)
             = ((fst (fst (clearTimer (w0, this0))),
                 set_nextAutoLevel
                   (set_lastLoadedFragLevel (snd (fst (clearTimer (w0, this0))))
                                            (Frag.level frag)) (-1)),
                Normal tt)).
  { intros w0 this0. run_method.
    pose proof (clearTimer_spec w0 this0) as (Hc & _).
    destruct (clearTimer (w0, this0)) as [st c]. cbn [fst snd] in *.
    now subst c. }
  destruct (Stats.aborted (loaded_stats data)) as [a|]; run_method.
  - apply Hfinish.
  - destruct (Frag.loadCounter frag =? 1); run_method.
    + destruct (bwEstimator this) as [est|]; run_method; [|reflexivity].
      apply Hfinish.
    + apply Hfinish.
Qed.


(** C8.  Handling the completion of a [main] fragment samples the
    estimator with ([now - stats.trequest], [stats.loaded]) exactly when
    this was the first load ([loadCounter] is 1) and [stats.aborted] is
    undefined.  Otherwise the estimator is left as it is.  In both cases
    the handler completes, the timer is disarmed and
    [lastLoadedFragLevel] is the level of the fragment. *)
Theorem onFragLoaded_samples_first_complete_load data w this frag :
  nth_error (heap w) (loaded_frag data) = Some frag ->
  Frag.type frag = "main"%string ->
  let stats := loaded_stats data in
  let st' := fst (onFragLoaded data (w, this)) in
  (first_complete_load data frag = true <->
   Stats.aborted stats = None /\ Frag.loadCounter frag = 1) /\
  (first_complete_load data frag = true ->
   forall est,
     bwEstimator this = Some est ->
     bwEstimator (snd st')
     = Some (record_sample est (now w - Stats.trequest stats)%js
                           (Stats.loaded stats)) /\
     bwEstimator (snd st') <> bwEstimator this /\
     snd (onFragLoaded data (w, this)) = Normal tt /\
     timer (snd st') = None /\
     lastLoadedFragLevel (snd st') = Frag.level frag) /\
  (first_complete_load data frag = false ->
   bwEstimator (snd st') = bwEstimator this /\
   snd (onFragLoaded data (w, this)) = Normal tt /\
   timer (snd st') = None /\
   lastLoadedFragLevel (snd st') = Frag.level frag).
Proof.
  intros Hfrag Hmain stats st'. subst stats st'.
  rewrite (onFragLoaded_main data w this frag Hfrag Hmain).
  split; [|split].
  - unfold first_complete_load.
    destruct (Stats.aborted (loaded_stats data)).
    + split; [discriminate|]. intros [H _]. discriminate.
    + rewrite Z.eqb_eq. tauto.
  - intros -> est Hest. rewrite Hest.
    match goal with
    | |- context [clearTimer (w, ?this1)] =>
        pose proof (clearTimer_spec w this1)
          as (_ & Ht & _ & _ & _ & _ & _ & Hb & _)
    end.
    cbn [fst snd] in *. simpl. rewrite Ht, Hb. simpl.
    repeat split; auto. intros [= H].
    apply (f_equal (fun e => List.length (samples e))) in H. simpl in H.
    lia.
  - intros ->.
    pose proof (clearTimer_spec w this)
      as (_ & Ht & _ & _ & _ & _ & _ & Hb & _).
    cbn [fst snd] in *. simpl. rewrite Ht, Hb. auto.
Qed.

(** C7.  While a next level is forced ([_nextAutoLevel] is not -1) the
    getter returns [min(_nextAutoLevel, maxAutoLevel)], whatever the
    estimator, the current fragment and the buffer are, and changes
    nothing.  The completion of a [main] fragment resets the forced level
    to -1, after which the getter is the selection on the estimate
    again. *)
Theorem forced_next_level_is_one_shot :
  (forall w this,
      _nextAutoLevel this <> -1 ->
      nextAutoLevel (w, this)
      = ((w, this),
         Normal (Z.min (_nextAutoLevel this) (maxAutoLevel w this)))) /\
  (forall data w this frag est,
      nth_error (heap w) (loaded_frag data) = Some frag ->
      Frag.type frag = "main"%string ->
      bwEstimator this = Some est ->
      let this' := snd (fst (onFragLoaded data (w, this))) in
      snd (onFragLoaded data (w, this)) = Normal tt /\
      _nextAutoLevel this' = -1 /\
      forall w' est' r current,
        bwEstimator this' = Some est' ->
        fragCurrent this' = Some r ->
        nth_error (heap w') r = Some current ->
        nextAutoLevel (w', this')
        = selectLevel (levels w') (maxAutoLevel w' this')
                      (Frag.duration current) (getEstimate est')
                      (availableFetchTime w' current) (w', this')).
Proof.
  split.
  - intros w this Hforced. unfold nextAutoLevel. run_method.
    destruct (_nextAutoLevel this =? -1) eqn:E; [|reflexivity].
    apply Z.eqb_eq in E. contradiction.
  - intros data w this frag est Hfrag Hmain Hest this'.
    assert (Hdone : snd (onFragLoaded data (w, this)) = Normal tt /\
                    _nextAutoLevel this' = -1).
    { subst this'.
      rewrite (onFragLoaded_main data w this frag Hfrag Hmain), Hest.
      destruct (first_complete_load data frag); split; reflexivity. }
    destruct Hdone as [Hc Hreset]. repeat split; auto.
    intros w' est' r current He Hr Hcur.
    now apply nextAutoLevel_unforced with (r := r).
Qed.

(** C9.  The getter on a controller that was just constructed: whatever
    the world is, reading [this.bwEstimator.getEstimate] throws. *)
Theorem nextAutoLevel_throws_before_first_fragment (w : World) :
  nextAutoLevel (w, constructor) = ((w, constructor), Throw TypeError).
Proof. reflexivity. Qed.

End Completion.

Lemma onFragLoaded_samples_first_complete_load_witness :
  let st := example_in_flight 1500000 17 1 2000 750000 in
  let data := {| loaded_frag := 0%nat;
                 loaded_stats := Stats.mk None (Fin 0) (Fin 750000) |} in
  bwEstimator (snd (fst (onFragLoaded data st)))
  = Some (record_sample (new_estimator (Fin 15) (Fin 4) (Fin 1500000))
                        (Fin 2000 - Fin 0)%js (Fin 750000)).
Proof.
  intros st data.
  refine (proj1 (proj1 (proj2 (onFragLoaded_samples_first_complete_load
                          data (fst st) (snd st)
                          (Frag.mk "main" 1 (Fin 6) (Fin 750000)
                             (Some (Loader.mk (Some (Stats.mk None n0 n0))))
                             (Fin 0) true 1) _ _)) _ _ _));
    reflexivity.
Defined.

Lemma forced_next_level_is_one_shot_witness :
  let st := example_loading 1500000 17 1 in
  @nextAutoLevel example_collaborators (fst st, set_nextAutoLevel (snd st) 5)
  = ((fst st, set_nextAutoLevel (snd st) 5), Normal 2).
Proof.
  intros st.
  refine (proj1 (@forced_next_level_is_one_shot example_collaborators)
            (fst st) (set_nextAutoLevel (snd st) 5) _).
  simpl. lia.
Defined.

Section StaleReference.

Context {collaborators : Collaborators}.

(** The check either leaves the timer alone or has just disarmed it,
    unless the estimator is missing; it never touches
    [this.fragCurrent]. *)
Lemma abandonRulesCheck_timer w this :
  let st' := fst (abandonRulesCheck (w, this)) in
  fragCurrent (snd st') = fragCurrent this /\
  ((effects (fst st') = effects w /\ timer (snd st') = timer this) \/
   timer (snd st') = None \/
   (bwEstimator this = None /\ timer (snd st') = timer this)).
Proof.
  unfold abandonRulesCheck. run_method.
  destruct (fragCurrent this) as [r|] eqn:Hr; run_method; [|auto].
  destruct (nth_error (heap w) r) as [frag|]; run_method; [|auto].
  destruct (loader_gone frag).
  - pose proof (clearTimer_spec
                  (with_effects w (Warn warn_destroyed :: effects w)) this)
      as (_ & Ht & _ & _ & _ & _ & _ & _ & Hf & _).
    cbn [fst snd] in *. rewrite Hf, Hr. auto.
  - destruct (media w) as [v|]; run_method; [|auto].
    destruct (playing_or_starting v && Frag.autoLevel frag
              && negb (Frag.level frag =? 0)); run_method; [|auto].
    destruct (requestDelay w frag >? n500 * Frag.duration frag
                                     / Num.abs (playbackRate v))%js;
      run_method; [|auto].
    destruct (level_at (levels w) (Frag.level frag)) as [lv|]; run_method;
      [|auto].
    destruct ((bufferStarvationDelay w v
               <? n2 * Frag.duration frag / Num.abs (playbackRate v))
              && (fragLoadedDelay w frag lv >? bufferStarvationDelay w v))%js;
      run_method; [|auto].
    destruct (fallback_search _ _ _ _ _) as [[exit d]|e]; run_method;
      [|auto].
    destruct (undefined_ltb d (fragLoadedDelay w frag lv)); run_method;
      [|auto].
    destruct (bwEstimator this) as [est|]; run_method; [|auto].
    match goal with
    | |- context [clearTimer (?w2, ?this2)] =>
        pose proof (clearTimer_spec w2 this2)
          as (Hc & Ht & _ & _ & _ & _ & _ & _ & Hf & _);
        destruct (clearTimer (w2, this2)) as [[w3 this3] c]
    end.
    cbn [fst snd] in *. subst c. cbn [fst snd]. rewrite Hf, Ht. auto.
Qed.

(** C6, as amended.  In a reachable state, the completion of a [main]
    fragment, an error of kind [FRAG_LOAD_ERROR] or [FRAG_LOAD_TIMEOUT],
    and a run of the abandon-rules check that records anything (the abort
    of the load, or the warning that the loader is gone) all leave the
    timer disarmed: no handle in [this.timer] and no interval active.
    [this.fragCurrent] is not reset by any of them. *)
Theorem transitions_disarm_timer_keep_reference (st : state) :
  reachable st ->
  (forall data frag,
      nth_error (heap (fst st)) (loaded_frag data) = Some frag ->
      Frag.type frag = "main"%string ->
      let st' := fst (onFragLoaded data st) in
      timer (snd st') = None /\ intervals (fst st') = [] /\
      fragCurrent (snd st') = fragCurrent (snd st)) /\
  (forall data,
      error_details data = FRAG_LOAD_ERROR \/
      error_details data = FRAG_LOAD_TIMEOUT ->
      let st' := fst (onError data st) in
      timer (snd st') = None /\ intervals (fst st') = [] /\
      fragCurrent (snd st') = fragCurrent (snd st)) /\
  (let st' := fst (abandonRulesCheck st) in
   effects (fst st') <> effects (fst st) ->
   timer (snd st') = None /\ intervals (fst st') = [] /\
   fragCurrent (snd st') = fragCurrent (snd st)).
Proof.
  intros Hreach. pose proof (reachable_invariant st Hreach) as Hinv.
  assert (Hidle : forall st', monitor_invariant st' ->
                              timer (snd st') = None ->
                              intervals (fst st') = []).
  { intros st' H Ht. unfold monitor_invariant in H. now rewrite Ht in H. }
  destruct st as [w this]. cbn [fst snd]. split; [|split].
  - intros data frag Hfrag Hmain.
    set (st' := fst (onFragLoaded data (w, this))).
    pose proof (invariant_onFragLoaded data _ Hinv) as Hinv'.
    fold st' in Hinv'.
    assert (Ht : timer (snd st') = None /\
                 fragCurrent (snd st') = fragCurrent this).
    { subst st'. rewrite (onFragLoaded_main data w this frag Hfrag Hmain).
      destruct (first_complete_load data frag).
      - destruct (bwEstimator this) as [est|] eqn:He.
        + match goal with
          | |- context [clearTimer (w, ?this1)] =>
              pose proof (clearTimer_spec w this1)
                as (_ & Ht & _ & _ & _ & _ & _ & _ & Hf & _)
          end.
          cbn [fst snd] in *. simpl. now rewrite Ht, Hf.
        + cbn [fst snd]. split; [|reflexivity].
          unfold monitor_invariant in Hinv. cbn [fst snd] in Hinv.
          destruct (timer this); [|reflexivity].
          destruct Hinv as (_ & (est & Hest) & _). congruence.
      - pose proof (clearTimer_spec w this)
          as (_ & Ht & _ & _ & _ & _ & _ & _ & Hf & _).
        cbn [fst snd] in *. simpl. now rewrite Ht, Hf. }
    destruct Ht as [Ht Hf]. auto.
  - intros data Hkind.
    set (st' := fst (onError data (w, this))).
    pose proof (invariant_onError data _ Hinv) as Hinv'. fold st' in Hinv'.
    assert (Ht : timer (snd st') = None /\
                 fragCurrent (snd st') = fragCurrent this).
    { subst st'. unfold onError.
      pose proof (clearTimer_spec w this)
        as (_ & Ht & _ & _ & _ & _ & _ & _ & Hf & _).
      destruct Hkind as [-> | ->]; auto. }
    destruct Ht as [Ht Hf]. auto.
  - set (st' := fst (abandonRulesCheck (w, this))). intros Heff.
    pose proof (invariant_abandonRulesCheck _ Hinv) as Hinv'.
    fold st' in Hinv'.
    destruct (abandonRulesCheck_timer w this) as (Hf & Hcase).
    fold st' in Hf, Hcase.
    assert (Ht : timer (snd st') = None).
    { destruct Hcase as [(He & _)|[Ht|(Hnone & Ht)]];
        [contradiction|exact Ht|].
      rewrite Ht. unfold monitor_invariant in Hinv. cbn [fst snd] in Hinv.
      destruct (timer this); [|reflexivity].
      destruct Hinv as (_ & (est & Hest) & _). congruence. }
    auto.
Qed.

End StaleReference.

(** C6, as stated, fails: once the fragment at address 0 has been loaded,
    [this.fragCurrent] still refers to it. *)
Lemma reference_kept_after_completion :
  @reachable example_collaborators (example_loading 1500000 17 1) /\
  ~ reference_dropped_on_completion
      (example_loading 1500000 17 1)
      {| loaded_frag := 0%nat;
         loaded_stats := Stats.mk None (Fin 0) (Fin 750000) |}.
Proof.
  split.
  - apply (@reachable_call example_collaborators
             (FragLoading {| loading_frag := 0%nat |})
             (example_world 1500000 17 1, constructor)).
    + now apply reachable_new.
    + exists (example_frag 1), (vod_level 1000000), {| live := false |}.
      repeat split.
  - intros H. now apply H.
Qed.

(* ------------------------------------------------------------------ *)
(** ** The theorems on concrete runs *)

Lemma abandonRulesCheck_needs_all_conditions_witness :
  let st := example_in_flight 1500000 2 2 1000 200000 in
  let st' := fst (@abandonRulesCheck example_collaborators st) in
  bwEstimator (snd st') = bwEstimator (snd st) /\
  (forall e, In e (effects (fst st')) ->
             In e (effects (fst st)) \/ e = Warn warn_destroyed).
Proof.
  exact (@abandonRulesCheck_needs_all_conditions example_collaborators
           (example_in_flight 1500000 2 2 1000 200000) eq_refl).
Defined.

Lemma abandonRulesCheck_fallback_search_witness :
  let st := example_in_flight 1500000 2 2 4000 800000 in
  let frag := Frag.mk "main" 2 (Fin 6) (Fin 800000)
                      (Some (Loader.mk (Some (Stats.mk None n0 n0))))
                      (Fin 0) true 1 in
  let delay0 := candidate_delay (Fin 6) (Fin 500000)
                                (load_rate_formula (Fin 800000)
                                                   (Fin 4000 - Fin 0)%js) in
  let st' := fst (@abandonRulesCheck example_collaborators st) in
  fallback_search (levels (fst st)) (nextLoadedDelay (fst st) frag)
                  (@bufferStarvationDelay example_collaborators (fst st)
                                          (example_media 2))
                  2 None
  = Normal (-1, Some delay0) /\
  Num.eqv delay0 (Fin (75 # 32)) /\
  snd (@abandonRulesCheck example_collaborators st) = Normal tt /\
  effects (fst st')
  = [FragLoadEmergencyAborted 0%nat; LoaderAbort 0%nat; Warn warn_too_slow;
     SetNextLoadLevel 0] /\
  bwEstimator (snd st')
  = Some (record_sample (new_estimator (Fin 15) (Fin 4) (Fin 1500000))
                        (Fin 4000 - Fin 0)%js (Fin 800000)) /\
  timer (snd st') = None.
Proof.
  intros st frag delay0 st'.
  destruct (@abandonRulesCheck_fallback_search example_collaborators
              (fst st) (snd st) 0%nat frag (example_media 2)
              (vod_level 2000000)
              (new_estimator (Fin 15) (Fin 4) (Fin 1500000))
              eq_refl eq_refl eq_refl eq_refl eq_refl eq_refl eq_refl)
    as (exit & candidateDelay & Hsearch & _ & Hswitch).
  assert (Hfound : Normal (exit, Some candidateDelay)
                   = Normal (-1, Some delay0))
    by (rewrite <- Hsearch; reflexivity).
  injection Hfound as -> ->.
  assert (Hbetter : (delay0 <? @fragLoadedDelay (fst st) frag
                                                 (vod_level 2000000))%js = true)
    by reflexivity.
  rewrite Hbetter in Hswitch.
  destruct Hswitch as (Hc & He & Hb & Ht & _).
  split; [exact Hsearch|]. split; [reflexivity|].
  split; [exact Hc|]. split; [exact He|]. split; [exact Hb|exact Ht].
Defined.

Lemma transitions_disarm_timer_keep_reference_witness :
  let st := example_loading 1500000 17 1 in
  let data := {| loaded_frag := 0%nat;
                 loaded_stats := Stats.mk None (Fin 0) (Fin 750000) |} in
  let st' := fst (onFragLoaded data st) in
  timer (snd st') = None /\ intervals (fst st') = [] /\
  fragCurrent (snd st') = fragCurrent (snd st).
Proof.
  intros st data.
  refine (proj1 (@transitions_disarm_timer_keep_reference
                   example_collaborators st _)
                data (Frag.set_trequest (example_frag 1) (Fin 0))
                eq_refl eq_refl).
  apply (@reachable_call example_collaborators
           (FragLoading {| loading_frag := 0%nat |})
           (example_world 1500000 17 1, constructor)).
  - now apply reachable_new.
  - exists (example_frag 1), (vod_level 1000000), {| live := false |}.
    repeat split.
Defined.

Lemma armed_timer_has_estimator_and_fragment_witness :
  let st := example_loading 1500000 17 1 in
  exists est r frag,
    bwEstimator (snd st) = Some est /\
    fragCurrent (snd st) = Some r /\
    nth_error (heap (fst st)) r = Some frag.
Proof.
  intros st.
  refine (proj1 (@armed_timer_has_estimator_and_fragment
                   example_collaborators) st _ _).
  - apply (@reachable_call example_collaborators
             (FragLoading {| loading_frag := 0%nat |})
             (example_world 1500000 17 1, constructor)).
    + now apply reachable_new.
    + exists (example_frag 1), (vod_level 1000000), {| live := false |}.
      repeat split.
  - left. discriminate.
Defined.

(** C10, as stated, fails: the timer is armed before the [details] of the
    level are read.  A [main] fragment of level 1 starts loading while the
    playlist of level 1 is not loaded; [onFragLoading] throws, and the
    state it leaves has the timer armed, no estimator and no current
    fragment; the tick that follows throws. *)
Lemma armed_timer_without_estimator :
  let st := fst (onFragLoading {| loading_frag := 0%nat |}
                               (example_world_pending 1500000 17, constructor)) in
  @reachable_any example_collaborators st /\
  timer (snd st) = Some 2%positive /\
  intervals (fst st) = [2%positive] /\
  bwEstimator (snd st) = None /\
  fragCurrent (snd st) = None /\
  ~ armed_timer_is_backed st /\
  snd (@abandonRulesCheck example_collaborators st) = Throw TypeError.
Proof.
  intros st. split.
  - apply (@reachable_any_call example_collaborators
             (FragLoading {| loading_frag := 0%nat |})
             (example_world_pending 1500000 17, constructor)).
    + now apply reachable_any_new.
    + now exists (example_frag 1).
  - repeat split; try reflexivity.
    intros H. destruct H as (est & _ & _ & Hest & _ & _); discriminate.
Qed.

(* ------------------------------------------------------------------ *)
(** ** Further properties of the methods *)

(** *** Fragments that are not of type [main], errors of other kinds *)

(** X1.  Only [main] fragments and fragment-load errors concern the
    controller: [onFragLoading] and [onFragLoaded] on a fragment of another
    type, and [onError] with details other than [FRAG_LOAD_ERROR] and
    [FRAG_LOAD_TIMEOUT], complete and leave the world and the controller as
    they are. *)
Theorem other_events_change_nothing (st : state) :
  (forall data f,
      nth_error (heap (fst st)) (loading_frag data) = Some f ->
      Frag.type f <> "main"%string ->
      onFragLoading data st = (st, Normal tt)) /\
  (forall data f,
      nth_error (heap (fst st)) (loaded_frag data) = Some f ->
      Frag.type f <> "main"%string ->
      onFragLoaded data st = (st, Normal tt)) /\
  (forall data name,
      error_details data = OtherDetails name ->
      onError data st = (st, Normal tt)).
Proof.
  destruct st as [w this]. cbn [fst]. split; [|split].
  - intros data f Hf Htype. apply String.eqb_neq in Htype.
    unfold onFragLoading. run_method. rewrite Hf. run_method.
    now rewrite Htype.
  - intros data f Hf Htype. apply String.eqb_neq in Htype.
    unfold onFragLoaded. run_method. rewrite Hf. run_method.
    now rewrite Htype.
  - intros data name Hd. unfold onError. now rewrite Hd.
Qed.

Lemma other_events_change_nothing_witness :
  let st := example_loading 1500000 17 1 in
  onError {| error_details := OtherDetails "levelLoadError" |} st
  = (st, Normal tt).
Proof.
  intros st.
  exact (proj2 (proj2 (other_events_change_nothing st))
               {| error_details := OtherDetails "levelLoadError" |}
               "levelLoadError"%string eq_refl).
Defined.

(** *** The first [main] fragment *)

(** The estimator [onFragLoading] builds for a level. *)
Lemma onFragLoading_idle data w this f :
  nth_error (heap w) (loading_frag data) = Some f ->
  Frag.type f = "main"%string ->
  timer this = None ->
  bwEstimator this = None ->
  let id := Pos.succ (lastTimerId w) in
  let w1 := with_intervals w (id :: intervals w) id in
  let this1 := set_timer this (Some id) in
  onFragLoading data (w, this)
  = match level_at (levels w) (Frag.level f) with
    | Some lv =>
        match details lv with
        | Some d =>
            let cfg := config w in
            let est :=
              if live d
              then new_estimator (abrEwmaSlowLive cfg) (abrEwmaFastLive cfg)
                                 (abrEwmaDefaultEstimate cfg)
              else new_estimator (abrEwmaSlowVoD cfg) (abrEwmaFastVoD cfg)
                                 (abrEwmaDefaultEstimate cfg) in
            ((with_heap w1 (replace_nth (heap w) (loading_frag data)
                                        (Frag.set_trequest f (now w))),
              set_fragCurrent (set_bwEstimator this1 (Some est))
                              (Some (loading_frag data))),
             Normal tt)
        | None => ((w1, this1), Throw TypeError)
        end
    | None => ((w1, this1), Throw TypeError)
    end.
Proof.
  intros Hf Hmain Ht He id w1 this1. subst id w1 this1.
  unfold onFragLoading. run_method. rewrite Hf. run_method.
  rewrite Hmain. cbn [String.eqb Ascii.eqb Bool.eqb]. run_method.
  rewrite Ht. run_method. cbn. rewrite He. run_method. cbn.
  destruct (level_at (levels w) (Frag.level f)) as [lv|]; run_method;
    [|reflexivity].
  destruct (details lv) as [d|]; run_method; [|reflexivity].
  cbn. rewrite Hf. run_method. destruct (live d); reflexivity.
Qed.

(** X2.  The first [main] fragment that starts loading, on a level whose
    playlist is loaded: the handler completes, arms one timer with a fresh
    handle, builds the estimator with the live pair of time constants when
    the level is live and with the VoD pair otherwise (slow first, then
    fast, then the default estimate, no sample yet), stamps the fragment
    with [performance.now()] and makes it the current fragment. *)
Theorem onFragLoading_first_main_fragment data w this f lv d :
  nth_error (heap w) (loading_frag data) = Some f ->
  Frag.type f = "main"%string ->
  timer this = None ->
  bwEstimator this = None ->
  level_at (levels w) (Frag.level f) = Some lv ->
  details lv = Some d ->
  let st' := fst (onFragLoading data (w, this)) in
  let cfg := config w in
  snd (onFragLoading data (w, this)) = Normal tt /\
  timer (snd st') = Some (Pos.succ (lastTimerId w)) /\
  intervals (fst st') = Pos.succ (lastTimerId w) :: intervals w /\
  bwEstimator (snd st')
  = Some (if live d
          then Build_Estimator (abrEwmaSlowLive cfg) (abrEwmaFastLive cfg)
                               (abrEwmaDefaultEstimate cfg) []
          else Build_Estimator (abrEwmaSlowVoD cfg) (abrEwmaFastVoD cfg)
                               (abrEwmaDefaultEstimate cfg) []) /\
  fragCurrent (snd st') = Some (loading_frag data) /\
  nth_error (heap (fst st')) (loading_frag data)
  = Some (Frag.set_trequest f (now w)).
Proof.
  intros Hf Hmain Ht He Hlv Hd.
  rewrite (onFragLoading_idle data w this f Hf Hmain Ht He), Hlv, Hd.
  cbn. repeat split; try (now destruct (live d)).
  now apply nth_error_replace_nth with (b := f).
Qed.

Lemma onFragLoading_first_main_fragment_witness :
  bwEstimator (snd (example_loading 1500000 17 1))
  = Some (Build_Estimator (Fin 15) (Fin 4) (Fin 1500000) []).
Proof.
  exact (proj1 (proj2 (proj2 (proj2
           (onFragLoading_first_main_fragment
              {| loading_frag := 0%nat |} (example_world 1500000 17 1)
              constructor (example_frag 1) (vod_level 1000000)
              {| live := false |} eq_refl eq_refl eq_refl eq_refl eq_refl
              eq_refl))))).
Defined.

Section MissingPlaylist.

Context {collaborators : Collaborators}.

(** X3.  The timer is armed before the estimator is built.  When the level
    of the first [main] fragment is not in [hls.levels], or has no
    [details] yet, [onFragLoading] throws with the timer armed, no
    estimator and no current fragment, and the tick that follows throws
    as well. *)
Theorem onFragLoading_without_playlist data w this f :
  nth_error (heap w) (loading_frag data) = Some f ->
  Frag.type f = "main"%string ->
  timer this = None ->
  bwEstimator this = None ->
  fragCurrent this = None ->
  (level_at (levels w) (Frag.level f) = None \/
   exists lv, level_at (levels w) (Frag.level f) = Some lv /\
              details lv = None) ->
  let st' := fst (onFragLoading data (w, this)) in
  snd (onFragLoading data (w, this)) = Throw TypeError /\
  timer (snd st') = Some (Pos.succ (lastTimerId w)) /\
  intervals (fst st') = Pos.succ (lastTimerId w) :: intervals w /\
  bwEstimator (snd st') = None /\
  fragCurrent (snd st') = None /\
  abandonRulesCheck st' = (st', Throw TypeError).
Proof.
  intros Hf Hmain Ht He Hc Hmissing.
  rewrite (onFragLoading_idle data w this f Hf Hmain Ht He).
  assert (Hthrow :
            match level_at (levels w) (Frag.level f) with
            | Some lv => details lv = None
            | None => True
            end).
  { destruct Hmissing as [-> |(lv & -> & Hd)]; auto. }
  destruct (level_at (levels w) (Frag.level f)) as [lv|].
  - rewrite Hthrow. cbn. repeat split; auto.
    unfold abandonRulesCheck. run_method. cbn. now rewrite Hc.
  - cbn. repeat split; auto.
    unfold abandonRulesCheck. run_method. cbn. now rewrite Hc.
Qed.

End MissingPlaylist.

Lemma onFragLoading_without_playlist_witness :
  let w := example_world 1500000 17 7 in
  snd (onFragLoading {| loading_frag := 0%nat |} (w, constructor))
  = Throw TypeError /\
  timer (snd (fst (onFragLoading {| loading_frag := 0%nat |} (w, constructor))))
  = Some 2%positive.
Proof.
  intros w.
  destruct (@onFragLoading_without_playlist example_collaborators
              {| loading_frag := 0%nat |} w constructor (example_frag 7)
              eq_refl eq_refl eq_refl eq_refl eq_refl (or_introl eq_refl))
    as (Hthrow & Htimer & _).
  split; assumption.
Defined.

(** *** What a call leaves alone *)

(** Everything [onFragLoading] does not touch. *)
Lemma onFragLoading_frame data w this :
  let st' := fst (onFragLoading data (w, this)) in
  effects (fst st') = effects w /\
  (forall est, bwEstimator this = Some est -> bwEstimator (snd st') = Some est) /\
  (heap (fst st') = heap w \/
   exists f, nth_error (heap w) (loading_frag data) = Some f /\
             Frag.type f = "main"%string /\
             heap (fst st') = replace_nth (heap w) (loading_frag data)
                                          (Frag.set_trequest f (now w))) /\
  _nextAutoLevel (snd st') = _nextAutoLevel this /\
  _autoLevelCapping (snd st') = _autoLevelCapping this /\
  lastLoadedFragLevel (snd st') = lastLoadedFragLevel this.
Proof.
  unfold onFragLoading. run_method.
  destruct (nth_error (heap w) (loading_frag data)) as [f|] eqn:Hf;
    run_method; [|repeat split; auto].
  destruct (Frag.type f =? "main")%string eqn:Hmain; run_method;
    [|repeat split; auto].
  apply String.eqb_eq in Hmain.
  assert (Hwritten :
            forall h, h = replace_nth (heap w) (loading_frag data)
                                      (Frag.set_trequest f (now w)) ->
                      h = heap w \/
                      exists f0, Some f = Some f0 /\
                                 Frag.type f0 = "main"%string /\
                                 h = replace_nth (heap w) (loading_frag data)
                                                 (Frag.set_trequest f0 (now w))).
  { intros h ->. right. now exists f. }
  assert (Hkept : heap w = heap w \/
                  exists f0, Some f = Some f0 /\
                             Frag.type f0 = "main"%string /\
                             heap w = replace_nth (heap w) (loading_frag data)
                                                  (Frag.set_trequest f0 (now w)))
    by now left.
  destruct (timer this) as [id|]; run_method; cbn;
    (destruct (bwEstimator this) as [est|] eqn:He; run_method; cbn;
     [rewrite Hf; run_method; cbn;
      repeat split; try (intros; congruence); apply Hwritten; reflexivity|]);
    (destruct (level_at (levels w) (Frag.level f)) as [lv|]; run_method; cbn;
     [|repeat split; try (intros; congruence); exact Hkept]);
    (destruct (details lv) as [d|]; run_method; cbn;
     [|repeat split; try (intros; congruence); exact Hkept]);
    rewrite Hf; run_method; cbn;
    repeat split; try (intros; congruence); apply Hwritten; reflexivity.
Qed.

(** The primitives the methods are made of keep a property of the state,
    as soon as the property does not depend on what they write. *)
Ltac keeps :=
  intros [w this] H;
  repeat match goal with x := _ |- _ => subst x end;
  unfold clearTimer; run_method;
  repeat (match goal with
          | |- context [match ?x with Some _ => _ | None => _ end] =>
              destruct x
          end; run_method);
  cbn in *; auto.

Ltac frame_step :=
  match goal with
  | |- preserves _ (bind _ _) => apply preserves_bind; [|intros ?]
  | |- preserves _ (if ?b then _ else _) => destruct b
  | |- preserves _ (match ?x with _ => _ end) => destruct x
  | |- preserves _ _ => solve [auto with preserves | keeps]
  end.

Section Frames.

Context {collaborators : Collaborators}.

(** X6.  Only the timer tick acts on the loader and on the player: no
    other call records an aborted load, an assignment to
    [hls.nextLoadLevel] or a triggered event; the one thing another call
    may record is the warning of [nextAutoLevel] that no level can be
    fetched in time. *)
Theorem only_the_tick_acts (c : call) (st : state) :
  c <> Tick ->
  forall e, In e (effects (fst (fst (run c st)))) ->
            In e (effects (fst st)) \/ e = Warn warn_no_level.
Proof.
  intros Hc.
  set (I := fun st' : state =>
              forall e, In e (effects (fst st')) ->
                        In e (effects (fst st)) \/ e = Warn warn_no_level).
  assert (Hwarn : preserves I (emit (Warn warn_no_level))).
  { intros [w this] H e. cbn. intros [<-|Hin]; auto. }
  assert (H0 : I st) by (intros e He; now left).
  assert (Hrun : preserves I (run c)); [|exact (Hrun st H0)].
  destruct c; cbn [run]; try contradiction.
  - intros [w this] H e.
    destruct (onFragLoading_frame data w this) as (-> & _). apply H.
  - unfold onFragLoaded. repeat frame_step.
  - unfold onError. repeat frame_step.
  - unfold destroy. repeat frame_step.
  - unfold put_autoLevelCapping. repeat frame_step.
  - unfold put_nextAutoLevel. repeat frame_step.
  - unfold nextAutoLevel, selectLevel. repeat frame_step.
Qed.


(** X4.  The estimator is built once.  Whatever the call, an estimator that
    exists is still there afterwards, built with the same time constants
    and default estimate, and its history of samples has only grown. *)
Theorem estimator_is_never_rebuilt (c : call) (st : state) (est : Estimator) :
  bwEstimator (snd st) = Some est ->
  exists est', bwEstimator (snd (fst (run c st))) = Some est' /\
               estimator_extends est est'.
Proof.
  intros Hest.
  set (I := fun st' : state =>
              exists est', bwEstimator (snd st') = Some est' /\
                           estimator_extends est est').
  assert (H0 : I st).
  { exists est. split; [exact Hest|]. repeat split. now exists []. }
  assert (Hsample : forall ms bytes, preserves I (sample ms bytes)).
  { intros ms bytes [w this] (e' & He' & Hs & Hf & Hd & newer & Hn).
    unfold sample. run_method. cbn in He'. rewrite He'. run_method.
    exists (record_sample e' ms bytes). split; [reflexivity|].
    repeat split; auto. exists ((ms, bytes) :: newer). cbn. now rewrite Hn. }
  assert (Hrun : preserves I (run c)); [|exact (Hrun st H0)].
  destruct c; cbn [run].
  - intros [w this] (e' & He' & Hext).
    destruct (onFragLoading_frame data w this) as (_ & Hkeep & _).
    exists e'. split; [now apply Hkeep|exact Hext].
  - unfold onFragLoaded. repeat frame_step.
  - unfold onError. repeat frame_step.
  - unfold abandonRulesCheck. repeat frame_step.
  - unfold destroy. repeat frame_step.
  - unfold put_autoLevelCapping. repeat frame_step.
  - unfold put_nextAutoLevel. repeat frame_step.
  - unfold nextAutoLevel, selectLevel. repeat frame_step.
Qed.

(** X5.  The one thing the controller ever writes to a fragment is
    [trequest] of the [main] fragment that starts loading: every other call
    leaves the heap of fragments as it is, and [onFragLoading] changes at
    most that one field of that one object. *)
Theorem only_trequest_is_written (c : call) (st : state) :
  let after := heap (fst (fst (run c st))) in
  after = heap (fst st) \/
  exists data f,
    c = FragLoading data /\
    nth_error (heap (fst st)) (loading_frag data) = Some f /\
    Frag.type f = "main"%string /\
    after = replace_nth (heap (fst st)) (loading_frag data)
                        (Frag.set_trequest f (now (fst st))).
Proof.
  cbv zeta.
  set (I := fun st' : state => heap (fst st') = heap (fst st)).
  assert (H0 : I st) by reflexivity.
  assert (Hkept : forall m : M unit,
             preserves I m -> heap (fst (fst (m st))) = heap (fst st)).
  { intros m Hm. exact (Hm st H0). }
  destruct c; cbn [run]; [|left; apply Hkept..].
  - destruct st as [w this].
    destruct (onFragLoading_frame data w this)
      as (_ & _ & [Hsame|(f & Hf & Hmain & Hwritten)] & _).
    + now left.
    + right. now exists data, f.
  - unfold onFragLoaded. repeat frame_step.
  - unfold onError. repeat frame_step.
  - unfold abandonRulesCheck. repeat frame_step.
  - unfold destroy. repeat frame_step.
  - unfold put_autoLevelCapping. repeat frame_step.
  - unfold put_nextAutoLevel. repeat frame_step.
  - unfold nextAutoLevel, selectLevel. repeat frame_step.
Qed.

End Frames.

Lemma only_the_tick_acts_witness :
  let st := example_loading 100000 9 1 in
  let e := Warn warn_no_level in
  In e (effects (fst (fst (@run example_collaborators GetNextAutoLevel st)))) /\
  (In e (effects (fst st)) \/ e = Warn warn_no_level).
Proof.
  intros st e.
  assert (Hin : In e (effects (fst (fst (@run example_collaborators
                                           GetNextAutoLevel st)))))
    by (left; reflexivity).
  split; [exact Hin|].
  refine (@only_the_tick_acts example_collaborators GetNextAutoLevel st _ e Hin).
  discriminate.
Defined.

Lemma estimator_is_never_rebuilt_witness :
  let st := example_in_flight 1500000 2 2 4000 800000 in
  exists est',
    bwEstimator (snd (fst (@run example_collaborators Tick st))) = Some est' /\
    estimator_extends (new_estimator (Fin 15) (Fin 4) (Fin 1500000)) est'.
Proof.
  intros st.
  exact (@estimator_is_never_rebuilt example_collaborators Tick st
           (new_estimator (Fin 15) (Fin 4) (Fin 1500000)) eq_refl).
Defined.

(** *** The numeric guards *)

Lemma ltb_irrefl a : (a <? a)%js = false.
Proof.
  destruct a as [x| | |]; auto. apply ltb_fin_false. lra.
Qed.

Lemma ltb_asym a b : (a <? b)%js = true -> (b <? a)%js = false.
Proof.
  destruct a as [x| | |], b as [y| | |]; auto; try discriminate.
  rewrite ltb_fin, ltb_fin_false. lra.
Qed.

Lemma max_not_below_l a b : (Num.max a b <? a)%js = false.
Proof.
  unfold Num.max.
  destruct a as [x| | |], b as [y| | |]; try reflexivity;
    match goal with
    | |- context [if ?c then _ else _] => destruct c eqn:E
    end;
    try (now apply ltb_asym); apply ltb_irrefl.
Qed.

Lemma by_sign_zero {A : Type} (q : Q) (a b c : A) :
  (q == 0)%Q -> Num.by_sign q a b c = b.
Proof.
  intros H. unfold Num.by_sign. now rewrite (proj1 (Qeq_alt q 0) H).
Qed.

(** [Math.max(1, x)] is [NaN], [Infinity] or a number from 1 on. *)
Lemma max_one_shape x :
  Num.max n1 x = NaN \/ Num.max n1 x = PInf \/
  exists q, Num.max n1 x = Fin q /\ (1 <= q)%Q.
Proof.
  unfold Num.max, n1. destruct x as [y| | |]; auto.
  - destruct (Fin 1 <? Fin y)%js eqn:E.
    + apply ltb_fin in E. right. right. exists y. split; [reflexivity|lra].
    + right. right. exists 1%Q. split; [reflexivity|lra].
  - right. right. exists 1%Q. split; [reflexivity|]. lra.
Qed.

Lemma Qdiv_nonneg (n q : Q) : (0 <= n)%Q -> (0 < q)%Q -> (0 <= n / q)%Q.
Proof.
  intros Hn Hq. apply Qle_shift_div_l; [exact Hq|]. lra.
Qed.

(** What is left to load, over a rate from 1 on, is never negative. *)
Lemma remaining_over_rate a x r :
  (r = NaN \/ r = PInf \/ exists q, r = Fin q /\ (1 <= q)%Q) ->
  ((Num.max a x - a) / r <? n0)%js = false.
Proof.
  intros Hr.
  assert (Hfin : forall n q, (0 <= n)%Q -> (1 <= q)%Q ->
                             (Fin n / Fin q <? n0)%js = false).
  { intros n q Hn Hq. cbn [Num.div]. rewrite by_sign_pos by lra.
    apply ltb_fin_false. apply Qdiv_nonneg; lra. }
  assert (Hinf : forall q, (1 <= q)%Q -> (PInf / Fin q)%js = PInf).
  { intros q Hq. cbn [Num.div]. now rewrite by_sign_pos by lra. }
  unfold Num.max, Num.sub.
  destruct a as [u| | |], x as [y| | |]; cbn [Num.ltb Num.neg Num.add];
    try (destruct Hr as [-> |[-> |(q & -> & Hq)]];
         try rewrite Hinf by assumption; reflexivity).
  - destruct (u ?= y)%Q eqn:E; cbn [Num.add];
      (destruct Hr as [-> |[-> |(q & -> & Hq)]];
       [reflexivity|reflexivity|apply Hfin; [|assumption]]); try lra.
    apply Qlt_alt in E. lra.
  - destruct Hr as [-> |[-> |(q & -> & Hq)]]; try reflexivity.
    apply Hfin; [lra|assumption].
Qed.

(** X7.  The guards of the source hold.  [loadRate] is never below 1
    byte/s and never 0, the divisor [8 * 0.8 * loadRate] is never 0,
    [expectedLen] is never below the bytes already loaded and
    [fragLoadedDelay] is never negative; the playback rate
    [nextAutoLevel] divides by is never 0 and never negative. *)
Theorem numeric_guards :
  (forall hls frag lv,
      (loadRate hls frag <? n1)%js = false /\
      Num.nonzero (loadRate hls frag) = true /\
      Num.nonzero (n8 * n0_8 * loadRate hls frag)%js = true /\
      (expectedLen frag lv <? Frag.loaded frag)%js = false /\
      (fragLoadedDelay hls frag lv <? n0)%js = false) /\
  (forall v,
      Num.nonzero (planningRate v) = true /\
      (planningRate v <? n0)%js = false).
Proof.
  split.
  - intros hls frag lv.
    pose proof (max_one_shape (Frag.loaded frag * n1000 / requestDelay hls frag)%js)
      as Hshape.
    fold (loadRate hls frag) in Hshape.
    split; [apply max_not_below_l|]. split; [|split; [|split]].
    + destruct Hshape as [-> |[-> |(q & -> & Hq)]]; auto.
      cbn. now rewrite by_sign_pos by lra.
    + destruct Hshape as [-> |[-> |(q & -> & Hq)]]; auto.
      cbn [n8 n0_8 Num.mul Num.nonzero]. rewrite by_sign_pos; [reflexivity|].
      assert (0 < 8 * (4 # 5))%Q by reflexivity. nra.
    + apply max_not_below_l.
    + unfold fragLoadedDelay, expectedLen. now apply remaining_over_rate.
  - intros [m|]; [|split; reflexivity]. unfold planningRate.
    destruct (playbackRate m) as [q| | |]; cbn; auto.
    unfold Num.by_sign. destruct (q ?= 0)%Q eqn:E; cbn; auto.
    + assert (0 < Qabs q)%Q.
      { apply Qlt_alt in E. rewrite Qabs_neg by lra. lra. }
      rewrite by_sign_pos by assumption. split; [reflexivity|].
      apply ltb_fin_false. lra.
    + assert (0 < Qabs q)%Q.
      { apply Qgt_alt in E. rewrite Qabs_pos by lra. lra. }
      rewrite by_sign_pos by assumption. split; [reflexivity|].
      apply ltb_fin_false. lra.
Qed.

Section ZeroRate.

Context {collaborators : Collaborators}.

(** X8.  A playback rate of 0 (possible while nothing is decoded yet):
    [500 * duration / 0] is [Infinity] (or [NaN] for a duration of 0), no
    request delay exceeds it, and the check changes nothing. *)
Theorem abandonRulesCheck_at_rate_zero w this r frag v (q d : Q) :
  fragCurrent this = Some r ->
  nth_error (heap w) r = Some frag ->
  loader_gone frag = false ->
  media w = Some v ->
  playbackRate v = Fin q -> (q == 0)%Q ->
  Frag.duration frag = Fin d -> (0 <= d)%Q ->
  abandonRulesCheck (w, this) = ((w, this), Normal tt).
Proof.
  intros Hcur Hfrag Hloader Hmedia Hrate Hq Hd Hd0.
  unfold abandonRulesCheck. run_method. rewrite Hcur. run_method.
  rewrite Hfrag. run_method. rewrite Hloader, Hmedia.
  destruct (playing_or_starting v && Frag.autoLevel frag
            && negb (Frag.level frag =? 0)); run_method; [|reflexivity].
  assert (Hnever : (requestDelay w frag
                    >? n500 * Frag.duration frag / Num.abs (playbackRate v))%js
                   = false).
  { rewrite Hrate, Hd. cbn [n500 Num.mul Num.abs Num.div].
    rewrite (by_sign_zero (Qabs q)) by (rewrite Hq; reflexivity).
    unfold Num.gtb, Num.by_sign.
    destruct (500 * d ?= 0)%Q eqn:E; try reflexivity.
    apply Qlt_alt in E. lra. }
  now rewrite Hnever.
Qed.

End ZeroRate.

Lemma abandonRulesCheck_at_rate_zero_witness :
  let st := example_in_flight 1500000 2 2 4000 800000 in
  let v := {| paused := false; playbackRate := Fin 0; readyState := 0;
              currentTime := Fin 0; buffered := [] |} in
  let w := Build_World (levels (fst st)) (Some v) (config (fst st))
                       (heap (fst st)) (now (fst st)) (intervals (fst st))
                       (lastTimerId (fst st)) (effects (fst st)) in
  @abandonRulesCheck example_collaborators (w, snd st) = ((w, snd st), Normal tt).
Proof.
  intros st v w.
  refine (@abandonRulesCheck_at_rate_zero example_collaborators w (snd st)
            0%nat (Frag.mk "main" 2 (Fin 6) (Fin 800000)
                     (Some (Loader.mk (Some (Stats.mk None n0 n0))))
                     (Fin 0) true 1)
            v 0 6 eq_refl eq_refl eq_refl eq_refl eq_refl _ eq_refl _).
  - reflexivity.
  - unfold Qle; simpl; lia.
Defined.

(** *** The timer tick *)

Section Tick.

Context {collaborators : Collaborators}.

(** The emergency switch to the level [l], run on a state. *)
Lemma emergency_switch_run w this r (l : Z) (ms bytes : num) :
  let st' := fst ((emit (SetNextLoadLevel l) ;;
                   sample ms bytes ;;
                   emit (Warn warn_too_slow) ;;
                   emit (LoaderAbort r) ;;
                   clearTimer ;;
                   emit (FragLoadEmergencyAborted r)) (w, this)) in
  let c := snd ((emit (SetNextLoadLevel l) ;;
                 sample ms bytes ;;
                 emit (Warn warn_too_slow) ;;
                 emit (LoaderAbort r) ;;
                 clearTimer ;;
                 emit (FragLoadEmergencyAborted r)) (w, this)) in
  match bwEstimator this with
  | Some est =>
      c = Normal tt /\
      effects (fst st')
      = [FragLoadEmergencyAborted r; LoaderAbort r; Warn warn_too_slow;
         SetNextLoadLevel l] ++ effects w /\
      bwEstimator (snd st') = Some (record_sample est ms bytes) /\
      timer (snd st') = None
  | None =>
      c = Throw TypeError /\
      effects (fst st') = SetNextLoadLevel l :: effects w /\
      snd st' = this
  end.
Proof.
  run_method. destruct (bwEstimator this) as [est|]; run_method;
    [|repeat split].
  match goal with
  | |- context [clearTimer (?w2, ?this2)] =>
      pose proof (clearTimer_spec w2 this2)
        as (Hc & Ht & _ & _ & _ & He & _ & Hb & _);
      destruct (clearTimer (w2, this2)) as [[w3 this3] c]
  end.
  cbn [fst snd] in *. subst c. cbn [fst snd]. repeat split; auto.
  cbn. now rewrite He.
Qed.

(** X9.  What a tick can do.  It records nothing; or the loader is gone and
    it warns and disarms the timer, the estimator untouched; or it switches
    down in an emergency, and then always to a level below the level of the
    fragment in flight, whose projected load time is strictly below the
    time the fragment in flight still needs.  (Without an estimator the
    switch throws right after the assignment to [hls.nextLoadLevel].) *)
Theorem abandonRulesCheck_switches_down w this r frag :
  fragCurrent this = Some r ->
  nth_error (heap w) r = Some frag ->
  let st' := fst (abandonRulesCheck (w, this)) in
  effects (fst st') = effects w
  \/
  (loader_gone frag = true /\
   effects (fst st') = Warn warn_destroyed :: effects w /\
   timer (snd st') = None /\
   bwEstimator (snd st') = bwEstimator this)
  \/
  (exists l lv lv',
      0 <= l < Frag.level frag /\
      level_at (levels w) (Frag.level frag) = Some lv /\
      level_at (levels w) l = Some lv' /\
      (nextLoadedDelay w frag lv' <? fragLoadedDelay w frag lv)%js = true /\
      (effects (fst st')
       = [FragLoadEmergencyAborted r; LoaderAbort r; Warn warn_too_slow;
          SetNextLoadLevel l] ++ effects w
       \/
       (bwEstimator this = None /\
        effects (fst st') = SetNextLoadLevel l :: effects w))).
Proof.
  intros Hcur Hfrag. unfold abandonRulesCheck. run_method.
  rewrite Hcur. run_method. rewrite Hfrag. run_method.
  destruct (loader_gone frag).
  - right. left.
    pose proof (clearTimer_spec
                  (with_effects w (Warn warn_destroyed :: effects w)) this)
      as (_ & Ht & _ & _ & _ & He & _ & Hb & _).
    cbn [fst snd] in *. auto.
  - destruct (media w) as [v|]; run_method; [|auto].
    destruct (playing_or_starting v && Frag.autoLevel frag
              && negb (Frag.level frag =? 0)) eqn:Hmon; run_method; [|auto].
    destruct (requestDelay w frag >? n500 * Frag.duration frag
                                     / Num.abs (playbackRate v))%js;
      run_method; [|auto].
    destruct (level_at (levels w) (Frag.level frag)) as [lv|] eqn:Hlv;
      run_method; [|auto].
    destruct ((bufferStarvationDelay w v
               <? n2 * Frag.duration frag / Num.abs (playbackRate v))
              && (fragLoadedDelay w frag lv >? bufferStarvationDelay w v))%js;
      run_method; [|auto].
    assert (Hlevel : 1 <= Frag.level frag).
    { apply andb_true_iff in Hmon as [_ Hnz].
      apply negb_true_iff, Z.eqb_neq in Hnz.
      unfold level_at in Hlv. destruct (levels w); [|discriminate].
      destruct (Frag.level frag <? 0) eqn:E; [discriminate|].
      apply Z.ltb_ge in E. lia. }
    destruct (fallback_search_spec (levels w) (nextLoadedDelay w frag)
                (bufferStarvationDelay w v)
                (Z.to_nat (Frag.level frag - 1 + 1)) None)
      as (exit & d & Hsearch & Hcase).
    { intros j Hj. apply (level_at_below _ (Frag.level frag) _ lv); auto.
      lia. }
    rewrite Hsearch. run_method.
    destruct (undefined_ltb d (fragLoadedDelay w frag lv)) eqn:Hbetter;
      run_method; [|auto].
    right. right.
    assert (Hchosen : exists lv', level_at (levels w) (Z.max 0 exit) = Some lv' /\
                                  d = Some (nextLoadedDelay w frag lv') /\
                                  0 <= Z.max 0 exit < Frag.level frag).
    { destruct Hcase as [(Hr & (lvx & Hx & -> & _) & _)|(-> & _ & Hlast)].
      - exists lvx. rewrite Z.max_r by lia. repeat split; auto; lia.
      - destruct (Z.to_nat (Frag.level frag - 1 + 1)) eqn:En; [lia|].
        destruct Hlast as (lv0 & H0 & ->). exists lv0.
        repeat split; auto; lia. }
    destruct Hchosen as (lv' & Hlv' & -> & Hrange).
    exists (Z.max 0 exit), lv, lv'. repeat split; try tauto; auto.
    pose proof (emergency_switch_run w this r (Z.max 0 exit)
                  (requestDelay w frag) (Frag.loaded frag)) as Hswitch.
    cbv zeta in Hswitch. revert Hswitch. run_method.
    destruct (bwEstimator this) as [est|]; run_method; intros Hswitch.
    + left. apply Hswitch.
    + right. split; [reflexivity|]. apply Hswitch.
Qed.

End Tick.

Lemma abandonRulesCheck_switches_down_witness :
  let st := example_in_flight 1500000 2 2 4000 800000 in
  let w := fst st in
  let frag := Frag.mk "main" 2 (Fin 6) (Fin 800000)
                      (Some (Loader.mk (Some (Stats.mk None n0 n0))))
                      (Fin 0) true 1 in
  let st' := fst (@abandonRulesCheck example_collaborators st) in
  effects (fst st') = effects w
  \/
  (loader_gone frag = true /\
   effects (fst st') = Warn warn_destroyed :: effects w /\
   timer (snd st') = None /\
   bwEstimator (snd st') = bwEstimator (snd st))
  \/
  (exists l lv lv',
      0 <= l < Frag.level frag /\
      level_at (levels w) (Frag.level frag) = Some lv /\
      level_at (levels w) l = Some lv' /\
      (nextLoadedDelay w frag lv'
       <? @fragLoadedDelay w frag lv)%js = true /\
      (effects (fst st')
       = [FragLoadEmergencyAborted 0%nat; LoaderAbort 0%nat;
          Warn warn_too_slow; SetNextLoadLevel l] ++ effects w
       \/
       (bwEstimator (snd st) = None /\
        effects (fst st') = SetNextLoadLevel l :: effects w))).
Proof.
  intros st w frag.
  exact (@abandonRulesCheck_switches_down example_collaborators
           (fst st) (snd st) 0%nat frag eq_refl eq_refl).
Defined.

(** *** The getter [nextAutoLevel] *)

Lemma scan_down_first levels test (n : nat) i :
  scan_down levels test n = Normal (Some i) ->
  forall j lvj, i < j < Z.of_nat n -> level_at levels j = Some lvj ->
                test lvj = false.
Proof.
  induction n as [|n IH]; simpl; [discriminate|].
  destruct (level_at levels (Z.of_nat n)) as [lv|] eqn:E; [|discriminate].
  destruct (test lv) eqn:T.
  - intros [= <-] j lvj Hj. lia.
  - intros H j lvj Hj Hl.
    destruct (Z.eq_dec j (Z.of_nat n)) as [->|Hne]; [congruence|].
    apply (IH H j); auto. lia.
Qed.

Section Getter.

Context {collaborators : Collaborators}.

(** X11.  Capping.  With no level forced, the estimator built, a current
    fragment and [maxAutoLevel] within the ladder, the getter returns, and
    what it returns is an index between 0 and [maxAutoLevel] (0 when
    [maxAutoLevel] is negative): never a level above the cap. *)
Theorem nextAutoLevel_within_cap w this est r frag :
  _nextAutoLevel this = -1 ->
  bwEstimator this = Some est ->
  fragCurrent this = Some r ->
  nth_error (heap w) r = Some frag ->
  (forall j, 0 <= j <= maxAutoLevel w this -> level_at (levels w) j <> None) ->
  exists i,
    snd (nextAutoLevel (w, this)) = Normal i /\
    0 <= i <= Z.max 0 (maxAutoLevel w this) /\
    (_autoLevelCapping this <> -1 -> i <= Z.max 0 (_autoLevelCapping this)).
Proof.
  intros Hforced Hest Hcur Hfrag Hladder.
  set (m := maxAutoLevel w this) in *.
  assert (Hdef : forall j, (j < Z.to_nat (m + 1))%nat ->
                           level_at (levels w) (Z.of_nat j) <> None).
  { intros j Hj. apply Hladder. lia. }
  destruct (scan_down_total (levels w)
              (fetched_in_time (Frag.duration frag) (getEstimate est)
                               (availableFetchTime w frag)) _ Hdef)
    as [first F].
  destruct (scan_down_total (levels w)
              (rebuilds_buffer (Frag.duration frag) (getEstimate est)
                               (availableFetchTime w frag)) _ Hdef)
    as [second S].
  eexists. split.
  - rewrite (nextAutoLevel_unforced w this est r frag) by assumption.
    fold m. apply (selectLevel_value _ _ _ _ _ _ first second); assumption.
  - assert (Hbound : forall found,
               (found = first \/ found = second) ->
               0 <= match found with Some i => i | None => 0 end <= Z.max 0 m).
    { intros [i|] Hfound; [|lia].
      assert (exists test, scan_down (levels w) test (Z.to_nat (m + 1))
                           = Normal (Some i)) as (test & Hscan).
      { destruct Hfound as [-> | ->]; eauto. }
      destruct (scan_down_sound _ _ _ _ Hscan) as (_ & Hi & _). lia. }
    assert (Hresult :
              0 <= match (if (availableFetchTime w frag >? n0)%js
                          then first else None) with
                   | Some i => i
                   | None => match second with Some i => i | None => 0 end
                   end <= Z.max 0 m).
    { destruct (availableFetchTime w frag >? n0)%js.
      - destruct first as [i|]; [apply (Hbound (Some i))|apply (Hbound second)];
          auto.
      - apply (Hbound second); auto. }
    split; [exact Hresult|].
    intros Hcap.
    assert (m = _autoLevelCapping this) as <-; [|apply Hresult].
    subst m. unfold maxAutoLevel. destruct (levels w) as [l|]; auto.
    destruct (_autoLevelCapping this =? -1) eqn:E; auto.
    apply Z.eqb_eq in E. contradiction.
Qed.

(** X12.  A cap above the ladder.  With no level forced, when
    [maxAutoLevel] is not an index of [hls.levels] (a cap set too high, or
    no levels at all under a non-negative cap), the first level the getter
    looks at is undefined and it throws. *)
Theorem nextAutoLevel_cap_beyond_ladder w this est r frag :
  _nextAutoLevel this = -1 ->
  bwEstimator this = Some est ->
  fragCurrent this = Some r ->
  nth_error (heap w) r = Some frag ->
  0 <= maxAutoLevel w this ->
  level_at (levels w) (maxAutoLevel w this) = None ->
  nextAutoLevel (w, this) = ((w, this), Throw TypeError).
Proof.
  intros Hforced Hest Hcur Hfrag Hm Hnone.
  rewrite (nextAutoLevel_unforced w this est r frag) by assumption.
  set (m := maxAutoLevel w this) in *.
  assert (Hscan : forall test,
             scan_down (levels w) test (Z.to_nat (m + 1)) = Throw TypeError).
  { intros test. replace (Z.to_nat (m + 1)) with (S (Z.to_nat m)) by lia.
    cbn [scan_down]. rewrite Z2Nat.id by lia. now rewrite Hnone. }
  unfold selectLevel, bind, lift, ret. rewrite !Hscan.
  now destruct (availableFetchTime w frag >? n0)%js.
Qed.

(** X13.  The getter reads.  It never changes the controller, and the one
    thing it may do to the world is to record the warning that no level can
    be fetched in time, which it does exactly when it falls back to 0. *)
Theorem nextAutoLevel_reads_only (st : state) :
  snd (fst (nextAutoLevel st)) = snd st /\
  (fst (fst (nextAutoLevel st)) = fst st \/
   (fst (fst (nextAutoLevel st))
    = with_effects (fst st) (Warn warn_no_level :: effects (fst st)) /\
    snd (nextAutoLevel st) = Normal 0)).
Proof.
  destruct st as [w this]. unfold nextAutoLevel. run_method.
  destruct (negb (_nextAutoLevel this =? -1)); run_method; [auto|].
  destruct (bwEstimator this) as [est|]; run_method; [|auto].
  destruct (fragCurrent this) as [r|]; run_method; [|auto].
  destruct (nth_error (heap w) r) as [frag|]; run_method; [|auto].
  unfold selectLevel. run_method.
  destruct (availableFetchTime w frag >? n0)%js; run_method;
    repeat match goal with
           | |- context [scan_down ?l ?t ?n] =>
               destruct (scan_down l t n) as [[i|]|e]; run_method
           end; auto.
Qed.

(** X14.  What the getter returns without a warning is justified: the
    level exists and either is the highest level up to [maxAutoLevel]
    fetched within [availableFetchTime > 0], or no level is fetched in time
    and it is the highest level that rebuilds the buffer. *)
Theorem nextAutoLevel_returns_justified w this est r frag i :
  let available := availableFetchTime w frag in
  let in_time :=
    fetched_in_time (Frag.duration frag) (getEstimate est) available in
  let recovers :=
    rebuilds_buffer (Frag.duration frag) (getEstimate est) available in
  _nextAutoLevel this = -1 ->
  bwEstimator this = Some est ->
  fragCurrent this = Some r ->
  nth_error (heap w) r = Some frag ->
  nextAutoLevel (w, this) = ((w, this), Normal i) ->
  exists lv,
    0 <= i <= maxAutoLevel w this /\
    level_at (levels w) i = Some lv /\
    (((available >? n0)%js = true /\
      in_time lv = true /\
      (forall j lvj, i < j <= maxAutoLevel w this ->
                     level_at (levels w) j = Some lvj -> in_time lvj = false))
     \/
     (recovers lv = true /\
      (forall j lvj, i < j <= maxAutoLevel w this ->
                     level_at (levels w) j = Some lvj ->
                     recovers lvj = false) /\
      ((available >? n0)%js = true ->
       forall j lvj, 0 <= j <= maxAutoLevel w this ->
                     level_at (levels w) j = Some lvj ->
                     in_time lvj = false))).
Proof.
  intros available in_time recovers Hforced Hest Hcur Hfrag.
  rewrite (nextAutoLevel_unforced w this est r frag) by assumption.
  subst available in_time recovers.
  unfold selectLevel, bind, lift, ret, emit, bind, getWorld, putWorld.
  cbn [fst snd].
  set (available := availableFetchTime w frag).
  set (in_time := fetched_in_time (Frag.duration frag) (getEstimate est)
                                  available).
  set (recovers := rebuilds_buffer (Frag.duration frag) (getEstimate est)
                                   available).
  set (m := maxAutoLevel w this).
  assert (Hfound : forall test i0,
             scan_down (levels w) test (Z.to_nat (m + 1)) = Normal (Some i0) ->
             exists lv, 0 <= i0 <= m /\ level_at (levels w) i0 = Some lv /\
                        test lv = true /\
                        forall j lvj, i0 < j <= m ->
                                      level_at (levels w) j = Some lvj ->
                                      test lvj = false).
  { intros test i0 Hscan.
    destruct (scan_down_sound _ _ _ _ Hscan) as (lv & Hi & Hl & Ht).
    exists lv. repeat split; auto; try lia.
    intros j lvj Hj. apply (scan_down_first _ _ _ _ Hscan). lia. }
  assert (Hnone : forall test,
             scan_down (levels w) test (Z.to_nat (m + 1)) = Normal None ->
             forall j lvj, 0 <= j <= m -> level_at (levels w) j = Some lvj ->
                           test lvj = false).
  { intros test Hscan j lvj Hj Hl.
    apply (scan_down_none_inv _ _ _ Hscan (Z.to_nat j)); [lia|].
    now rewrite Z2Nat.id by lia. }
  assert (Hwarned : forall c : completion Z,
             ((with_effects w (Warn warn_no_level :: effects w), this), c)
             <> ((w, this), Normal i)).
  { intros c [= H _]. apply (f_equal (fun w0 => List.length (effects w0))) in H.
    cbn in H. lia. }
  destruct (available >? n0)%js eqn:Hpos.
  - destruct (scan_down (levels w) in_time (Z.to_nat (m + 1)))
      as [[i1|]|e] eqn:F; try discriminate.
    + intros [= ->]. destruct (Hfound _ _ F) as (lv & Hi & Hl & Ht & Habove).
      exists lv. repeat split; auto; try lia.
    + destruct (scan_down (levels w) recovers (Z.to_nat (m + 1)))
        as [[i2|]|e] eqn:S; try discriminate.
      * intros [= ->]. destruct (Hfound _ _ S) as (lv & Hi & Hl & Ht & Habove).
        exists lv. repeat split; auto; try lia.
        right. repeat split; auto. intros _. now apply Hnone.
      * intros H. now apply Hwarned in H.
  - destruct (scan_down (levels w) recovers (Z.to_nat (m + 1)))
      as [[i2|]|e] eqn:S; try discriminate.
    + intros [= ->]. destruct (Hfound _ _ S) as (lv & Hi & Hl & Ht & Habove).
      exists lv. repeat split; auto; try lia.
      right. repeat split; auto. discriminate.
    + intros H. now apply Hwarned in H.
Qed.

End Getter.

Lemma nextAutoLevel_within_cap_witness :
  let st := example_loading 1500000 17 1 in
  let this := set_autoLevelCapping (snd st) 0 in
  exists i,
    snd (@nextAutoLevel example_collaborators (fst st, this)) = Normal i /\
    0 <= i <= Z.max 0 (maxAutoLevel (fst st) this) /\
    (_autoLevelCapping this <> -1 -> i <= Z.max 0 (_autoLevelCapping this)).
Proof.
  intros st this.
  refine (@nextAutoLevel_within_cap example_collaborators (fst st) this
            (new_estimator (Fin 15) (Fin 4) (Fin 1500000)) 0%nat
            (Frag.set_trequest (example_frag 1) (Fin 0))
            eq_refl eq_refl eq_refl eq_refl _).
  intros j Hj.
  assert (Hmax : maxAutoLevel (fst st) this = 0) by reflexivity.
  rewrite Hmax in Hj. assert (j = 0) as -> by lia. discriminate.
Defined.

Lemma nextAutoLevel_cap_beyond_ladder_witness :
  let st := example_loading 1500000 17 1 in
  let this := set_autoLevelCapping (snd st) 3 in
  @nextAutoLevel example_collaborators (fst st, this)
  = ((fst st, this), Throw TypeError).
Proof.
  intros st this.
  refine (@nextAutoLevel_cap_beyond_ladder example_collaborators (fst st) this
            (new_estimator (Fin 15) (Fin 4) (Fin 1500000)) 0%nat
            (Frag.set_trequest (example_frag 1) (Fin 0))
            eq_refl eq_refl eq_refl eq_refl _ eq_refl).
  vm_compute. discriminate.
Defined.

Lemma nextAutoLevel_returns_justified_witness :
  let st := example_loading 1500000 17 1 in
  exists lv,
    0 <= 1 <= maxAutoLevel (fst st) (snd st) /\
    level_at (levels (fst st)) 1 = Some lv.
Proof.
  intros st.
  destruct (@nextAutoLevel_returns_justified example_collaborators
              (fst st) (snd st)
              (new_estimator (Fin 15) (Fin 4) (Fin 1500000)) 0%nat
              (Frag.set_trequest (example_frag 1) (Fin 0)) 1
              eq_refl eq_refl eq_refl eq_refl eq_refl)
    as (lv & Hi & Hl & _).
  exists lv. split; assumption.
Defined.

(** *** Once a [main] fragment has started loading *)

Section Started.

Context {collaborators : Collaborators}.

Lemma started_sample (ms bytes : num) :
  preserves started_invariant (sample ms bytes).
Proof.
  intros [w this] H. unfold sample. run_method.
  destruct (bwEstimator this) as [est|] eqn:E; run_method; [|exact H].
  unfold started_invariant in *. cbn in *. intros Hcur.
  destruct (H Hcur) as (_ & Hfrag). split; [eauto|exact Hfrag].
Qed.

Lemma started_onFragLoading data st :
  started_invariant st ->
  well_formed (FragLoading data) (fst st) ->
  started_invariant (fst (onFragLoading data st)).
Proof.
  destruct st as [w this]. intros Hinv (f & lv & d & Hf & Hlv & Hd).
  cbn [fst] in *. unfold started_invariant in *. cbn [fst snd] in Hinv.
  assert (Hwritten : nth_error (replace_nth (heap w) (loading_frag data)
                                            (Frag.set_trequest f (now w)))
                               (loading_frag data)
                     = Some (Frag.set_trequest f (now w)))
    by now apply nth_error_replace_nth with (b := f).
  unfold onFragLoading. run_method. rewrite Hf. run_method.
  destruct (Frag.type f =? "main")%string; run_method; [|exact Hinv].
  destruct (timer this) as [id|]; run_method; cbn;
    (destruct (bwEstimator this) as [est|] eqn:He; run_method; cbn;
     [|rewrite Hlv; run_method; rewrite Hd; run_method; cbn]);
    rewrite Hf; run_method; cbn; intros _; eauto 8.
Qed.

Lemma reachable_started st : reachable st -> started_invariant st.
Proof.
  induction 1 as [w Hw|w w' this _ IH Henv|c st _ IH Hwf].
  - intros H. now contradiction H.
  - unfold started_invariant in *. cbn [fst snd] in *. intros Hcur.
    destruct (IH Hcur) as (Hest & r & frag & Hr & Hfrag).
    split; [exact Hest|].
    destruct Henv as (Hheap & _).
    destruct (nth_error (heap w') r) as [frag'|] eqn:E; [eauto|].
    apply nth_error_None in E.
    assert (r < List.length (heap w))%nat
      by (apply nth_error_Some; congruence).
    lia.
  - pose proof started_sample as Hsample.
    assert (Hrun : c = FragLoading (match c with
                                    | FragLoading data => data
                                    | _ => {| loading_frag := 0%nat |}
                                    end) \/
                   preserves started_invariant (run c)).
    { destruct c; cbn [run]; [now left|right..].
      - unfold onFragLoaded. repeat frame_step.
      - unfold onError. repeat frame_step.
      - unfold abandonRulesCheck. repeat frame_step.
      - unfold destroy. repeat frame_step.
      - unfold put_autoLevelCapping. repeat frame_step.
      - unfold put_nextAutoLevel. repeat frame_step.
      - unfold nextAutoLevel, selectLevel. repeat frame_step. }
    destruct Hrun as [Hc|Hp]; [|exact (Hp st IH)].
    rewrite Hc in Hwf |- *. now apply started_onFragLoading.
Qed.

(** X15.  A completion finds the estimator.  In a reachable state in which
    a [main] fragment has started loading, [onFragLoaded] completes for
    every fragment.  When no estimator has been built, the completion of a
    first, unaborted load of a [main] fragment throws instead, before the
    timer is cleared and before the forced level is reset: nothing has
    changed. *)
Theorem onFragLoaded_completes_once_started :
  (forall st data,
      reachable st ->
      fragCurrent (snd st) <> None ->
      well_formed (FragLoaded data) (fst st) ->
      snd (onFragLoaded data st) = Normal tt) /\
  (forall w this data frag,
      nth_error (heap w) (loaded_frag data) = Some frag ->
      Frag.type frag = "main"%string ->
      first_complete_load data frag = true ->
      bwEstimator this = None ->
      onFragLoaded data (w, this) = ((w, this), Throw TypeError)).
Proof.
  split.
  - intros [w this] data Hreach Hcur (frag & Hfrag).
    destruct (reachable_started _ Hreach Hcur) as ((est & Hest) & _).
    cbn [fst snd] in *.
    destruct (String.eqb_spec (Frag.type frag) "main") as [Hmain|Hother].
    + rewrite (onFragLoaded_main data w this frag Hfrag Hmain), Hest.
      now destruct (first_complete_load data frag).
    + unfold onFragLoaded. run_method. rewrite Hfrag. run_method.
      apply String.eqb_neq in Hother. now rewrite Hother.
  - intros w this data frag Hfrag Hmain Hfirst Hnone.
    now rewrite (onFragLoaded_main data w this frag Hfrag Hmain), Hfirst, Hnone.
Qed.

(** X16.  [destroy] on a reachable state completes and leaves no timer: no
    handle in [this.timer], no interval active, so that no tick follows;
    the estimator, the current fragment, the forced level and the cap stay
    as they are, nothing is recorded, and a second [destroy] changes
    nothing. *)
Theorem destroy_disarms (st : state) :
  reachable st ->
  let st' := fst (destroy st) in
  snd (destroy st) = Normal tt /\
  timer (snd st') = None /\
  intervals (fst st') = [] /\
  ~ well_formed Tick (fst st') /\
  bwEstimator (snd st') = bwEstimator (snd st) /\
  fragCurrent (snd st') = fragCurrent (snd st) /\
  _nextAutoLevel (snd st') = _nextAutoLevel (snd st) /\
  _autoLevelCapping (snd st') = _autoLevelCapping (snd st) /\
  effects (fst st') = effects (fst st) /\
  destroy st' = (st', Normal tt).
Proof.
  intros Hreach. pose proof (reachable_invariant st Hreach) as Hinv.
  destruct st as [w this]. unfold destroy.
  pose proof (clearTimer_spec w this)
    as (Hc & Ht & _ & Hidle & Harmed & He & _ & Hb & Hf & Hn & Ha & _).
  cbv zeta in *.
  destruct (clearTimer (w, this)) as [[w' this'] c] eqn:E.
  cbn [fst snd] in *.
  assert (Hi : intervals w' = []).
  { unfold monitor_invariant in Hinv. cbn [fst snd] in Hinv.
    destruct (timer this) as [id|].
    - destruct Hinv as (Hi & _). now apply (Harmed id).
    - rewrite Hidle by reflexivity. exact Hinv. }
  repeat split; auto; try (now apply clearTimer_idle).
Qed.

End Started.

Lemma onFragLoaded_completes_once_started_witness :
  let st := example_loading 1500000 17 1 in
  snd (onFragLoaded {| loaded_frag := 0%nat;
                       loaded_stats := Stats.mk None (Fin 0) (Fin 750000) |}
                    st) = Normal tt.
Proof.
  intros st.
  refine (proj1 (@onFragLoaded_completes_once_started example_collaborators)
                st _ _ _ _).
  - apply (@reachable_call example_collaborators
             (FragLoading {| loading_frag := 0%nat |})
             (example_world 1500000 17 1, constructor)).
    + now apply reachable_new.
    + exists (example_frag 1), (vod_level 1000000), {| live := false |}.
      repeat split.
  - discriminate.
  - now exists (Frag.set_trequest (example_frag 1) (Fin 0)).
Defined.

Lemma destroy_disarms_witness :
  let st := example_loading 1500000 17 1 in
  intervals (fst (fst (destroy st))) = [].
Proof.
  intros st.
  refine (proj1 (proj2 (proj2 (@destroy_disarms example_collaborators st _)))).
  apply (@reachable_call example_collaborators
           (FragLoading {| loading_frag := 0%nat |})
           (example_world 1500000 17 1, constructor)).
  - now apply reachable_new.
  - exists (example_frag 1), (vod_level 1000000), {| live := false |}.
    repeat split.
Defined.

(** *** The setters *)

Section Setters.

Context {collaborators : Collaborators}.

(** X17.  A setter takes effect at the next query.  After
    [set nextAutoLevel] with a level other than -1 the getter returns that
    level capped by [maxAutoLevel], in every state.  After
    [set autoLevelCapping] with a cap [c >= 0] the getter never returns an
    index above [c], forced level or not, whatever the estimate is. *)
Theorem setters_govern_next_query :
  (forall w this l,
      l <> -1 ->
      (put_nextAutoLevel l ;; nextAutoLevel) (w, this)
      = ((w, set_nextAutoLevel this l),
         Normal (Z.min l (maxAutoLevel w this)))) /\
  (forall st c i,
      0 <= c ->
      snd ((put_autoLevelCapping c ;; nextAutoLevel) st) = Normal i ->
      i <= c).
Proof.
  split.
  - intros w this l Hl. unfold put_nextAutoLevel, nextAutoLevel. run_method.
    cbn. destruct (l =? -1) eqn:E; [|reflexivity].
    apply Z.eqb_eq in E. contradiction.
  - intros [w this] c i Hc.
    unfold put_autoLevelCapping. run_method.
    set (this' := set_autoLevelCapping this c).
    assert (Hmax : maxAutoLevel w this' = c).
    { unfold maxAutoLevel. cbn. destruct (levels w) as [l|]; auto.
      destruct (c =? -1) eqn:E; auto. apply Z.eqb_eq in E. lia. }
    unfold nextAutoLevel. run_method. rewrite Hmax.
    destruct (negb (_nextAutoLevel this' =? -1)); run_method.
    { intros [= <-]. lia. }
    destruct (bwEstimator this') as [est|]; run_method; [|discriminate].
    destruct (fragCurrent this') as [r|]; run_method; [|discriminate].
    destruct (nth_error (heap w) r) as [frag|]; run_method; [|discriminate].
    unfold selectLevel, bind, lift, ret, emit, bind, getWorld, putWorld.
    cbn [fst snd].
    assert (Hfound : forall test i0,
               scan_down (levels w) test (Z.to_nat (c + 1))
               = Normal (Some i0) -> i0 <= c).
    { intros test i0 Hscan.
      destruct (scan_down_sound _ _ _ _ Hscan) as (_ & Hi & _). lia. }
    destruct (availableFetchTime w frag >? n0)%js;
      repeat match goal with
             | |- context [scan_down ?l ?t ?n] =>
                 let F := fresh "F" in
                 destruct (scan_down l t n) as [[?|]|?] eqn:F
             end;
      cbn [fst snd]; intros [= <-]; eauto; lia.
Qed.

End Setters.

Lemma setters_govern_next_query_witness :
  let st := example_loading 1500000 17 1 in
  @nextAutoLevel example_collaborators
    (fst (@put_nextAutoLevel 0 st))
  = ((fst st, set_nextAutoLevel (snd st) 0), Normal 0).
Proof.
  intros st.
  refine (proj1 (@setters_govern_next_query example_collaborators)
                (fst st) (snd st) 0 _).
  discriminate.
Defined.

(** *** A tick with a fragment in flight *)

Section TickCompletes.

Context {collaborators : Collaborators}.

Lemma started_onFragLoading_any data :
  preserves started_invariant (onFragLoading data).
Proof.
  intros [w this] Hinv. unfold started_invariant in *. cbn [fst snd] in Hinv.
  assert (Hidle : bwEstimator this = None -> fragCurrent this <> None -> False).
  { intros He Hcur. destruct (Hinv Hcur) as ((est & Hest) & _). congruence. }
  unfold onFragLoading. run_method.
  destruct (nth_error (heap w) (loading_frag data)) as [f|] eqn:Hf;
    run_method; [|exact Hinv].
  assert (Hwritten : nth_error (replace_nth (heap w) (loading_frag data)
                                            (Frag.set_trequest f (now w)))
                               (loading_frag data)
                     = Some (Frag.set_trequest f (now w)))
    by now apply nth_error_replace_nth with (b := f).
  destruct (Frag.type f =? "main")%string; run_method; [|exact Hinv].
  destruct (timer this) as [id|]; run_method; cbn;
    (destruct (bwEstimator this) as [est|] eqn:He; run_method; cbn;
     [rewrite Hf; run_method; cbn; intros _; eauto 8|]);
    (destruct (level_at (levels w) (Frag.level f)) as [lv|]; run_method; cbn;
     [|intros Hcur; now destruct (Hidle eq_refl Hcur)]);
    (destruct (details lv) as [d|]; run_method; cbn;
     [|intros Hcur; now destruct (Hidle eq_refl Hcur)]);
    rewrite Hf; run_method; cbn; intros _; eauto 8.
Qed.

Lemma started_run (c : call) : preserves started_invariant (run c).
Proof.
  pose proof started_sample as Hsample.
  destruct c; cbn [run].
  - apply started_onFragLoading_any.
  - unfold onFragLoaded. repeat frame_step.
  - unfold onError. repeat frame_step.
  - unfold abandonRulesCheck. repeat frame_step.
  - unfold destroy. repeat frame_step.
  - unfold put_autoLevelCapping. repeat frame_step.
  - unfold put_nextAutoLevel. repeat frame_step.
  - unfold nextAutoLevel, selectLevel. repeat frame_step.
Qed.

Lemma reachable_any_started st : reachable_any st -> started_invariant st.
Proof.
  induction 1 as [w Hw|w w' this _ IH Henv|c st _ IH Hwf].
  - intros H. now contradiction H.
  - unfold started_invariant in *. cbn [fst snd] in *. intros Hcur.
    destruct (IH Hcur) as (Hest & r & frag & Hr & Hfrag).
    split; [exact Hest|].
    destruct Henv as (Hheap & _).
    destruct (nth_error (heap w') r) as [frag'|] eqn:E; [eauto|].
    apply nth_error_None in E.
    assert (r < List.length (heap w))%nat
      by (apply nth_error_Some; congruence).
    lia.
  - now apply started_run.
Qed.

(** X10.  With a fragment in flight, a tick completes.  In every state the
    controller can reach, whatever the levels of the fragments that
    started loading were, once [this.fragCurrent] is set
    [abandonRulesCheck] completes without throwing as long as the level of
    that fragment is still in [hls.levels]: the fragment and the estimator
    it reads are there, and the search only visits levels below that
    one. *)
Theorem tick_completes (st : state) :
  reachable_any st ->
  fragCurrent (snd st) <> None ->
  (forall frag, monitored st = Some frag ->
                level_at (levels (fst st)) (Frag.level frag) <> None) ->
  snd (abandonRulesCheck st) = Normal tt.
Proof.
  intros Hreach Hstarted Hlevel.
  destruct (reachable_any_started st Hreach Hstarted)
    as ((est & Hest) & r & frag & Hcur & Hfrag).
  destruct st as [w this]. unfold monitored in *. cbn [fst snd] in *.
  rewrite Hcur, Hfrag in Hlevel. specialize (Hlevel frag eq_refl).
  unfold abandonRulesCheck. run_method.
  rewrite Hcur. run_method. rewrite Hfrag. run_method.
  destruct (loader_gone frag).
  - apply (clearTimer_spec
             (with_effects w (Warn warn_destroyed :: effects w)) this).
  - destruct (media w) as [v|]; run_method; [|reflexivity].
    destruct (playing_or_starting v && Frag.autoLevel frag
              && negb (Frag.level frag =? 0)); run_method; [|reflexivity].
    destruct (requestDelay w frag >? n500 * Frag.duration frag
                                     / Num.abs (playbackRate v))%js;
      run_method; [|reflexivity].
    destruct (level_at (levels w) (Frag.level frag)) as [lv|] eqn:Hlv;
      [|contradiction].
    run_method.
    destruct ((bufferStarvationDelay w v
               <? n2 * Frag.duration frag / Num.abs (playbackRate v))
              && (fragLoadedDelay w frag lv >? bufferStarvationDelay w v))%js;
      run_method; [|reflexivity].
    destruct (fallback_search_spec (levels w) (nextLoadedDelay w frag)
                (bufferStarvationDelay w v)
                (Z.to_nat (Frag.level frag - 1 + 1)) None)
      as (exit & d & Hsearch & _).
    { intros j Hj. apply (level_at_below _ (Frag.level frag) _ lv); auto.
      assert (0 <= Frag.level frag); [|lia].
      unfold level_at in Hlv. destruct (levels w); [|discriminate].
      destruct (Frag.level frag <? 0) eqn:E; [discriminate|].
      now apply Z.ltb_ge in E. }
    rewrite Hsearch. run_method.
    destruct (undefined_ltb d (fragLoadedDelay w frag lv)); run_method;
      [|reflexivity].
    pose proof (emergency_switch_run w this r (Z.max 0 exit)
                  (requestDelay w frag) (Frag.loaded frag)) as Hswitch.
    cbv zeta in Hswitch. revert Hswitch. run_method.
    rewrite Hest. run_method. intros Hswitch. apply Hswitch.
Qed.

End TickCompletes.

Lemma tick_completes_witness :
  snd (@abandonRulesCheck example_collaborators
         (example_in_flight 1500000 2 2 4000 800000)) = Normal tt.
Proof.
  apply (@tick_completes example_collaborators).
  - apply (@reachable_any_env example_collaborators
             (fst (example_loading 1500000 2 2))
             (fst (example_in_flight 1500000 2 2 4000 800000))
             (snd (example_loading 1500000 2 2))).
    + apply (@reachable_any_call example_collaborators
               (FragLoading {| loading_frag := 0%nat |})
               (example_world 1500000 2 2, constructor)).
      * now apply reachable_any_new.
      * now exists (example_frag 2).
    + repeat split. simpl. lia.
  - discriminate.
  - intros frag [= <-]. discriminate.
Defined.
